(** * Vector addition on the GPU: the Triton kernel and its launcher

    A shallow embedding of [src/triton/vector_addition.py]:

    - [add_kernel]  the [@triton.jit] kernel (lines 12-42),
    - [add]         the host-side launcher (lines 45-69),
    - [benchmark]   the bandwidth computation of the benchmark (lines 86-106).

    Device memory is a finite map from allocation bases to buffers.  Every
    load, store and program start is recorded in a trace, and an access
    outside every buffer marks the state as undefined: from then on memory
    carries no meaning.

    Host integers are Python's and unbounded.  Inside the kernel the program
    id and the offsets are 32-bit integers, as Triton has them: products
    and sums wrap around, and an offset is an integer between [-2^31] and
    [2^31 - 1].

    The programs of a grid run in an order the runtime picks; the
    properties of [add] are proved for every order that runs each program
    of the grid once, and speak of memory once the whole grid has run
    (that is, after the caller has synchronized). *)

From Stdlib Require Import Floats.PrimFloat Floats.SpecFloat Floats.FloatOps.
From Stdlib Require Import ZArith Sorting.Permutation.
From stdpp Require Import gmap list strings.

Set Default Proof Using "Type".
Local Set Warnings "-inexact-float".

(** ** Tensors *)

(** [torch.dtype], as far as the program looks at it: the size in bytes of
    one element ([Tensor.element_size()]). *)
Inductive dtype := float16 | float32 | float64.

Definition dtype_size (d : dtype) : nat :=
  match d with float16 => 2 | float32 => 4 | float64 => 8 end.

(** The base address of an allocation, and a pointer into it: a base and an
    offset in elements, which may be negative.  A tensor passed to a kernel
    is converted into a pointer to its first element. *)
Definition loc := nat.

Record pointer := Ptr { ptr_base : loc; ptr_off : Z }.

#[global] Instance pointer_eq_dec : EqDecision pointer.
Proof. solve_decision. Defined.

(** A [torch.Tensor] handle: a contiguous one-dimensional buffer. *)
Record Tensor := mkTensor {
  data_ptr : loc;
  numel : nat;
  tensor_dtype : dtype;
  is_cuda : bool
}.

Definition element_size (t : Tensor) : nat := dtype_size (tensor_dtype t).

Definition first_element (t : Tensor) : pointer := Ptr (data_ptr t) 0.

(** ** Exceptions *)

Inductive exn :=
  | AssertionError
  | UnboundLocalError
  | ValueError
  | ZeroDivisionError.

Inductive result (A : Type) :=
  | Ok (a : A)
  | Raise (e : exn).
Arguments Ok {A} a.
Arguments Raise {A} e.

(** ** What the trace records *)

Inductive event :=
  | EvProgram (pid : nat)     (* one kernel instance is dispatched *)
  | EvLoad (p : pointer)      (* an unmasked lane of [tl.load] *)
  | EvStore (p : pointer).    (* an unmasked lane of [tl.store] *)

#[global] Instance event_eq_dec : EqDecision event.
Proof. solve_decision. Defined.

(** ** 32-bit integers of the kernel *)

Definition wrap32 (z : Z) : Z := ((z + 2 ^ 31) `mod` 2 ^ 32 - 2 ^ 31)%Z.

Definition int32_add (a b : Z) : Z := wrap32 (a + b).
Definition int32_mul (a b : Z) : Z := wrap32 (a * b).

(** The launch context of one kernel instance and the metaparameters of a
    launch ([BLOCK_SIZE] is the only one).  [tl.program_id] is a 32-bit
    integer. *)
Record program_ctx := { axis0 : nat }.

Definition program_id (ctx : program_ctx) (axis : nat) : Z :=
  match axis with 0 => Z.of_nat (axis0 ctx) | _ => 0%Z end.

Record metaparams := { BLOCK_SIZE : nat }.

(** [triton.cdiv(x, y) = (x + y - 1) // y], on the host. *)
Definition cdiv (x y : nat) : nat := (x + y - 1) / y.

(** ** Blocks: the vectors a Triton program computes with *)

(** The largest number of elements of a block. *)
Definition TRITON_MAX_TENSOR_NUMEL : Z := 1048576.

(** [tl.arange(start, end)], as the library defines it: it is refused
    when the kernel is compiled unless [end] is greater than [start], the
    range is a power of two, and the block is not too large. *)
Definition arange (start end_ : Z) : result (list Z) :=
  if (end_ <=? start)%Z then Raise ValueError
  else
    let range := (end_ - start)%Z in
    if negb (Z.land range (range - 1) =? 0)%Z then Raise ValueError
    else if (TRITON_MAX_TENSOR_NUMEL <? range)%Z then Raise ValueError
    else Ok (seqZ start range).

(** A scalar broadcast over a block: [s + block] on 32-bit integers,
    [block < s] against a host integer, [ptr + block]. *)
Definition block_add (s : Z) (b : list Z) : list Z := int32_add s <$> b.
Definition block_lt (b : list Z) (s : Z) : list bool :=
  (λ o, bool_decide (o < s)%Z) <$> b.
Definition ptr_add (p : pointer) (k : Z) : pointer :=
  Ptr (ptr_base p) (ptr_off p + k).
Definition block_ptr (p : pointer) (b : list Z) : list pointer := ptr_add p <$> b.

(** The lanes of a block that a mask lets through. *)
Definition masked {A} (b : list A) (mask : list bool) : list A :=
  fst <$> filter (λ lane, snd lane = true) (zip b mask).

(** The offsets of program [pid] (lines 28-29), its mask (line 32) and the
    offsets that pass the mask, for a block of [BLOCK_SIZE] lanes. *)
Definition block_offsets (BLOCK_SIZE pid : nat) : list Z :=
  block_add (int32_mul (Z.of_nat pid) (Z.of_nat BLOCK_SIZE))
            (seqZ 0 (Z.of_nat BLOCK_SIZE)).

Definition block_mask (BLOCK_SIZE n_elements pid : nat) : list bool :=
  block_lt (block_offsets BLOCK_SIZE pid) (Z.of_nat n_elements).

Definition valid_offsets (BLOCK_SIZE n_elements pid : nat) : list Z :=
  masked (block_offsets BLOCK_SIZE pid) (block_mask BLOCK_SIZE n_elements pid).


(** The block sizes [tl.arange] accepts, and the programs and grids none
    of whose offsets wraps around. *)
Definition block_size_ok (BLOCK_SIZE : nat) : Prop :=
  ∃ k, k ≤ 20 ∧ BLOCK_SIZE = 2 ^ k.

Definition program_fits (BLOCK_SIZE pid : nat) : Prop :=
  ((Z.of_nat pid + 1) * Z.of_nat BLOCK_SIZE ≤ 2 ^ 31)%Z.

Definition grid_fits (BLOCK_SIZE n_elements : nat) : Prop :=
  (Z.of_nat (cdiv n_elements BLOCK_SIZE) * Z.of_nat BLOCK_SIZE ≤ 2 ^ 31)%Z.

(** The offsets of the block of program [pid] that lie below the element
    count.  *)
Definition in_block (BLOCK_SIZE n_elements pid : nat) (o : Z) : Prop :=
  (Z.of_nat pid * Z.of_nat BLOCK_SIZE ≤ o
   < Z.of_nat pid * Z.of_nat BLOCK_SIZE + Z.of_nat BLOCK_SIZE)%Z ∧
  (o < Z.of_nat n_elements)%Z.

#[global] Instance in_block_dec BLOCK_SIZE n_elements pid o :
  Decision (in_block BLOCK_SIZE n_elements pid o).
Proof. unfold in_block. apply _. Defined.


Section Device.

(** The element type of the buffers and its addition (the [+] of
    [x + y] on line 41). *)
Context {scalar : Type} (scalar_add : scalar → scalar → scalar).

(** The runtime runs the instances of a grid in an order of its own
    choosing: [schedule g] is that order for a grid of [g] programs. *)
Variable schedule : nat → list nat.

(** A memory cell holds a value or is indeterminate ([None]): fresh
    memory of [torch.empty_like] and a masked-off lane of a load. *)
Definition cell : Type := option scalar.

Record state := State {
  heap : gmap loc (list cell);
  trace : list event;
  undefined : bool
}.

(** *** The monad of the program: state and exceptions *)

Definition M (A : Type) : Type := state → result A * state.

Definition ret {A} (a : A) : M A := λ st, (Ok a, st).

Definition bind {A B} (m : M A) (k : A → M B) : M B :=
  λ st, match m st with
        | (Ok a, st') => k a st'
        | (Raise e, st') => (Raise e, st')
        end.

Definition raise {A} (e : exn) : M A := λ st, (Raise e, st).

Notation "'do' x <- m ; k" := (bind m (λ x, k))
  (at level 10, x name, m at level 99, k at level 200).
Notation "m ;; k" := (bind m (λ _, k))
  (at level 100, k at level 200, right associativity).

Definition assert_ (b : bool) : M unit :=
  if b then ret () else raise AssertionError.

Definition log (evs : list event) : M unit :=
  λ st, (Ok (), State (heap st) (trace st ++ evs) (undefined st)).

(** *** Memory accesses *)

(** A pointer points into a buffer of the memory. *)
Definition in_bounds_b (h : gmap loc (list cell)) (p : pointer) : bool :=
  match h !! ptr_base p with
  | Some buf => (0 <=? ptr_off p)%Z && (ptr_off p <? Z.of_nat (length buf))%Z
  | None => false
  end.

Definition cell_at (buf : list cell) (off : Z) : option cell :=
  if (0 <=? off)%Z then buf !! Z.to_nat off else None.

Definition write_cell (buf : list cell) (off : Z) (v : cell) : list cell :=
  if (0 <=? off)%Z then <[Z.to_nat off := v]> buf else buf.

(** What a load finds and what a store leaves.  Outside every buffer a load
    finds nothing and a store leaves memory alone; the access marks the
    state as undefined (see [load] and [store]). *)
Definition read (h : gmap loc (list cell)) (p : pointer) : cell :=
  mjoin (h !! ptr_base p ≫= (λ buf, cell_at buf (ptr_off p))).

Definition write (h : gmap loc (list cell)) (p : pointer) (v : cell)
  : gmap loc (list cell) :=
  alter (λ buf, write_cell buf (ptr_off p) v) (ptr_base p) h.

Definition any_out_of_bounds (h : gmap loc (list cell)) (ps : list pointer) : bool :=
  existsb (λ p, negb (in_bounds_b h p)) ps.

(** [tl.load(ptrs, mask=mask)]: the lanes the mask lets through read
    memory, the others are indeterminate. *)
Definition load (ptrs : list pointer) (mask : list bool) : M (list cell) :=
  λ st, (Ok (zip_with (λ p (m : bool), if m then read (heap st) p else None) ptrs mask),
         State (heap st) (trace st ++ (EvLoad <$> masked ptrs mask))
               (undefined st || any_out_of_bounds (heap st) (masked ptrs mask))).

Fixpoint store_lanes (h : gmap loc (list cell))
    (ptrs : list pointer) (vals : list cell) (mask : list bool)
  : gmap loc (list cell) :=
  match ptrs, vals, mask with
  | p :: ptrs', v :: vals', m :: mask' =>
      store_lanes (if (m : bool) then write h p v else h) ptrs' vals' mask'
  | _, _, _ => h
  end.

(** [tl.store(ptrs, vals, mask=mask)]. *)
Definition store (ptrs : list pointer) (vals : list cell) (mask : list bool) : M unit :=
  λ st, (Ok (), State (store_lanes (heap st) ptrs vals mask)
                      (trace st ++ (EvStore <$> masked ptrs mask))
                      (undefined st || any_out_of_bounds (heap st) (masked ptrs mask))).

(** [x + y] on blocks. *)
Definition cell_add (a b : cell) : cell :=
  match a, b with
  | Some u, Some v => Some (scalar_add u v)
  | _, _ => None
  end.

Definition block_cell_add (x y : list cell) : list cell := zip_with cell_add x y.

(** *** The kernel (lines 12-42) *)

(** One kernel instance, and a kernel as the just-in-time compiler leaves
    it: a program, or the error that stopped the compilation. *)
Definition program : Type := program_ctx → M unit.
Definition kernel : Type := result program.

(** The body of the kernel.  [arange_] is the value of
    [tl.arange(0, BLOCK_SIZE)] on line 29, which does not depend on the
    program and is computed when the kernel is compiled. *)
Definition add_program (x_ptr y_ptr output_ptr : pointer) (n_elements : nat)
    (BLOCK_SIZE : nat) (arange_ : list Z) : program := λ ctx,
  let pid := program_id ctx 0 in
  let block_start := int32_mul pid (Z.of_nat BLOCK_SIZE) in
  let offsets := block_add block_start arange_ in
  let mask := block_lt offsets (Z.of_nat n_elements) in
  do x <- load (block_ptr x_ptr offsets) mask;
  do y <- load (block_ptr y_ptr offsets) mask;
  let output := block_cell_add x y in
  store (block_ptr output_ptr offsets) output mask.

Definition add_kernel (x_ptr y_ptr output_ptr : pointer) (n_elements : nat)
    (BLOCK_SIZE : nat) : kernel :=
  match arange 0 (Z.of_nat BLOCK_SIZE) with
  | Raise e => Raise e
  | Ok arange_ => Ok (add_program x_ptr y_ptr output_ptr n_elements BLOCK_SIZE arange_)
  end.

(** *** The launcher (lines 45-69) *)

(** [kernel[grid](..., BLOCK_SIZE=...)]: the kernel is compiled, and one
    instance per program id of the grid is run, in the order the runtime
    picks.  A kernel that does not compile raises and runs nothing. *)
Fixpoint run_programs (k : program) (pids : list nat) : M unit :=
  match pids with
  | [] => ret ()
  | pid :: rest =>
      log [EvProgram pid] ;; k {| axis0 := pid |} ;; run_programs k rest
  end.

Definition launch (grid : metaparams → nat) (k : metaparams → kernel)
    (kwargs : metaparams) : M unit :=
  match k kwargs with
  | Raise e => raise e
  | Ok prog => run_programs prog (schedule (grid kwargs))
  end.

(** [torch.empty_like(x)]: a fresh buffer shaped like [x], contents
    indeterminate. *)
Definition empty_like (x : Tensor) : M Tensor :=
  λ st, let l := fresh (dom (heap st)) in
        (Ok (mkTensor l (numel x) (tensor_dtype x) (is_cuda x)),
         State (<[l := replicate (numel x) None]> (heap st)) (trace st) (undefined st)).

(** The state [add] returns is the one the launch leaves when it has
    completed. *)
Definition add (x y : Tensor) : M Tensor :=
  do output <- empty_like x;
  assert_ (is_cuda x && is_cuda y && is_cuda output) ;;
  let n_elements := numel output in
  let grid := λ meta, cdiv n_elements (BLOCK_SIZE meta) in
  launch grid
    (λ meta, add_kernel (first_element x) (first_element y) (first_element output)
               n_elements (BLOCK_SIZE meta))
    {| BLOCK_SIZE := 1024 |} ;;
  ret output.

(** *** The benchmark (lines 86-106) *)

(** [torch.rand(size, device='cuda', dtype=...)]: a fresh device buffer
    filled by the random generator, whose draws are [rand_values]. *)
Variable rand_values : loc → nat → list scalar.

Definition rand (size : nat) (d : dtype) : M Tensor :=
  λ st, let l := fresh (dom (heap st)) in
        (Ok (mkTensor l size d true),
         State (<[l := Some <$> rand_values l size]> (heap st)) (trace st) (undefined st)).

(** [x + y] of the tensor library, the reference the benchmark compares
    with: a fresh tensor holding the element-wise sums. *)
Definition torch_add (x y : Tensor) : M Tensor :=
  λ st, let l := fresh (dom (heap st)) in
        (Ok (mkTensor l (numel x) (tensor_dtype x) (is_cuda x)),
         State (<[l := zip_with cell_add (default [] (heap st !! data_ptr x))
                                         (default [] (heap st !! data_ptr y))]> (heap st))
               (trace st) (undefined st)).

(** [triton.testing.do_bench(fn, quantiles=...)] runs [fn] repeatedly and
    returns, for each requested quantile, that quantile of the measured
    run times in milliseconds.  The measurement is the runtime's:
    [quantile_ms fn q] stands for it.  The buffers of the timed runs are
    released again, so the state is as before. *)
Variable quantile_ms : M Tensor → float → float.

Definition do_bench (fn : M Tensor) (quantiles : list float) : M (list float) :=
  ret (quantile_ms fn <$> quantiles).

(** Python's [int / float]: the integer is converted to the nearest
    binary64 number first, and a divisor equal to zero raises. *)
Definition float_of_int (z : Z) : float :=
  SF2Prim (binary_normalize prec emax z 0 false).

Definition int_truediv (z : Z) (d : float) : M float :=
  if PrimFloat.eqb d 0 then raise ZeroDivisionError
  else ret (float_of_int z / d)%float.

(** The three names [ms, min_ms, max_ms] are bound by one of the two
    [if]s, or by neither.  The components of the returned tuple are
    computed from left to right. *)
Definition benchmark (size : nat) (provider : string)
  : M (float * float * float) :=
  do x <- rand size float32;
  do y <- rand size float32;
  let quantiles := [0.5; 0.2; 0.8]%float in
  let bound : option (list float) := None in
  do bound <- (if String.eqb provider "torch"
               then do r <- do_bench (torch_add x y) quantiles; ret (Some r)
               else ret bound);
  do bound <- (if String.eqb provider "triton"
               then do r <- do_bench (add x y) quantiles; ret (Some r)
               else ret bound);
  let gbps := λ ms : float,
    do q <- int_truediv (3 * Z.of_nat (numel x) * Z.of_nat (element_size x)) ms;
    ret (q * 1e-6)%float in
  match bound with
  | None => raise UnboundLocalError
  | Some [ms; min_ms; max_ms] =>
      do g1 <- gbps ms; do g2 <- gbps max_ms; do g3 <- gbps min_ms;
      ret (g1, g2, g3)
  | Some _ => raise ValueError
  end.

(** *** Notions the statements below are written with *)

(** What one instance computes for offset [o], from the memory [h] it
    loads from. *)
Definition lane_sum (h : gmap loc (list cell)) (x_ptr y_ptr : pointer) (o : Z) : cell :=
  cell_add (read h (ptr_add x_ptr o)) (read h (ptr_add y_ptr o)).

(** The accesses of one instance, in the order it makes them. *)
Definition kernel_events (x_ptr y_ptr output_ptr : pointer)
    (n_elements BLOCK_SIZE pid : nat) : list event :=
  (EvLoad <$> (ptr_add x_ptr <$> valid_offsets BLOCK_SIZE n_elements pid)) ++
  (EvLoad <$> (ptr_add y_ptr <$> valid_offsets BLOCK_SIZE n_elements pid)) ++
  (EvStore <$> (ptr_add output_ptr <$> valid_offsets BLOCK_SIZE n_elements pid)).

(** [t[i]]: element [i] of a tensor, as memory has it. *)
Definition tensor_get (st : state) (t : Tensor) (i : nat) : cell :=
  read (heap st) (ptr_add (first_element t) (Z.of_nat i)).

(** The tensor [t] is allocated in [st] and holds [buf]. *)
Definition tensor_holds (st : state) (t : Tensor) (buf : list cell) : Prop :=
  heap st !! data_ptr t = Some buf ∧ numel t = length buf.

(** [len(t)] as memory has it: the length of the buffer [t] points to. *)
Definition buffer_length (st : state) (t : Tensor) : option nat :=
  length <$> heap st !! data_ptr t.

(** The events a run from [st] to [st'] added to the trace, and the program
    ids dispatched among them. *)
Definition new_events (st st' : state) : list event :=
  drop (length (trace st)) (trace st').

Definition dispatched (evs : list event) : list nat :=
  omap (λ e, match e with EvProgram pid => Some pid | _ => None end) evs.

(** The pointers stored to, and loaded from, among some events, in the
    order of the events. *)
Definition stores (evs : list event) : list pointer :=
  omap (λ e, match e with EvStore p => Some p | _ => None end) evs.

Definition loads (evs : list event) : list pointer :=
  omap (λ e, match e with EvLoad p => Some p | _ => None end) evs.

(** The pointer [p] points into a buffer of [h]; an access that does
    not. *)
Definition in_bounds (h : gmap loc (list cell)) (p : pointer) : Prop :=
  ∃ buf, h !! ptr_base p = Some buf ∧ (0 ≤ ptr_off p < Z.of_nat (length buf))%Z.

Definition event_fault (h : gmap loc (list cell)) (e : event) : bool :=
  match e with
  | EvProgram _ => false
  | EvLoad p | EvStore p => negb (in_bounds_b h p)
  end.

(** The bandwidth figure in GB/s for [size] elements of [esz] bytes each
    moved three times in [ms] milliseconds. *)
Definition bandwidth (size esz : nat) (ms : float) : float :=
  (float_of_int (3 * Z.of_nat size * Z.of_nat esz) / ms * 1e-6)%float.

End Device.

(** The sizes the benchmark is run on (line 74):
    [[2**i for i in range(12, 28, 1)]]. *)
Definition x_vals : list nat := (λ i, 2 ^ i) <$> seq 12 (28 - 12).

(** ** Example data

    Elements are binary32 numbers, added with rounding to nearest: [f32 m e]
    is the binary32 number nearest to [m * 2^e].  There are two
    three-element buffers, a one-element buffer, a three-element buffer
    to write to and an empty buffer; a runtime that runs the programs of a
    grid last to first; a
    generator that draws ones; and a clock on which the [q]-quantile of the
    run times is [10 * q] ms. *)

Definition f32 (m e : Z) : spec_float := binary_normalize 24 128 m e false.
Definition f32_add : spec_float → spec_float → spec_float := SFadd 24 128.

Definition ex_schedule (g : nat) : list nat := rev (seq 0 g).

Definition ex_a : list spec_float := [f32 1 0; f32 2 0; f32 7 (-1)].
Definition ex_b : list spec_float := [f32 10 0; f32 20 0; f32 30 0].
Definition ex_c : list spec_float := [f32 100 0].
Definition ex_d : list spec_float := [f32 0 0; f32 0 0; f32 0 0].

Definition ex_x : Tensor := mkTensor 0 3 float32 true.
Definition ex_y : Tensor := mkTensor 1 3 float32 true.
Definition ex_short : Tensor := mkTensor 2 1 float32 true.
Definition ex_out : Tensor := mkTensor 3 3 float32 true.
Definition ex_empty : Tensor := mkTensor 4 0 float32 true.

Definition ex_st : @state spec_float :=
  State {[ 0 := Some <$> ex_a; 1 := Some <$> ex_b; 2 := Some <$> ex_c;
           3 := Some <$> ex_d; 4 := [] ]} [] false.

Definition ex_rand (l : loc) (n : nat) : list spec_float := replicate n (f32 1 0).

Definition ex_quantile_ms (fn : @M spec_float Tensor) (q : float) : float :=
  (q * 10)%float.

(** A clock that measures no time at all. *)
Definition ex_zero_ms (fn : @M spec_float Tensor) (q : float) : float := 0%float.




(** * Properties *)

(** ** 32-bit offsets and the blocks of the index range *)

Section Blocks.

Implicit Types BLOCK_SIZE n_elements pid i : nat.
Implicit Types o j z : Z.

Lemma wrap32_range z : (- 2 ^ 31 ≤ wrap32 z < 2 ^ 31)%Z.
Proof.
  unfold wrap32. pose proof (Z.mod_pos_bound (z + 2 ^ 31) (2 ^ 32)). lia.
Qed.

Lemma wrap32_id z : (- 2 ^ 31 ≤ z < 2 ^ 31)%Z → wrap32 z = z.
Proof. intros Hz. unfold wrap32. rewrite Z.mod_small; lia. Qed.

Lemma masked_fmap {A B} (f : A → B) (g : A → bool) (l : list A) :
  masked (f <$> l) (g <$> l) = f <$> filter (λ a, g a = true) l.
Proof.
  unfold masked. induction l as [|a l IH]; [done|].
  cbn [fmap list_fmap zip zip_with]. rewrite !filter_cons. cbn [snd].
  fold (zip (f <$> l) (g <$> l)).
  destruct (decide (g a = true)) as [Ha|Ha]; cbn; by rewrite IH.
Qed.

Lemma filter_all {A} (P : A → Prop) `{∀ x, Decision (P x)} (l : list A) :
  Forall P l → filter P l = l.
Proof.
  induction 1 as [|a l Ha Hl IH]; [done|].
  rewrite filter_cons, decide_True by done. by rewrite IH.
Qed.

(** The offsets of a program, wrapped or not. *)
Lemma elem_of_block_offsets_wrap BLOCK_SIZE pid o :
  o ∈ block_offsets BLOCK_SIZE pid ↔
  ∃ j, (0 ≤ j < Z.of_nat BLOCK_SIZE)%Z ∧
       o = wrap32 (wrap32 (Z.of_nat pid * Z.of_nat BLOCK_SIZE) + j).
Proof.
  unfold block_offsets, block_add, int32_add, int32_mul.
  rewrite list_elem_of_fmap. setoid_rewrite elem_of_seqZ. split.
  - intros (j & -> & Hj). exists j. split; [lia|done].
  - intros (j & Hj & ->). exists j. split; [done|lia].
Qed.

Lemma block_offsets_int32 BLOCK_SIZE pid o :
  o ∈ block_offsets BLOCK_SIZE pid → (- 2 ^ 31 ≤ o < 2 ^ 31)%Z.
Proof. intros (j & _ & ->)%elem_of_block_offsets_wrap. apply wrap32_range. Qed.

Lemma length_block_offsets BLOCK_SIZE pid :
  length (block_offsets BLOCK_SIZE pid) = BLOCK_SIZE.
Proof.
  unfold block_offsets, block_add. rewrite length_fmap, length_seqZ. lia.
Qed.

Lemma program_fits_no_wrap BLOCK_SIZE pid j :
  program_fits BLOCK_SIZE pid → (0 ≤ j < Z.of_nat BLOCK_SIZE)%Z →
  wrap32 (wrap32 (Z.of_nat pid * Z.of_nat BLOCK_SIZE) + j)
  = (Z.of_nat pid * Z.of_nat BLOCK_SIZE + j)%Z.
Proof.
  unfold program_fits. intros Hfit Hj.
  assert (0 ≤ Z.of_nat pid * Z.of_nat BLOCK_SIZE)%Z by lia.
  rewrite (wrap32_id (Z.of_nat pid * Z.of_nat BLOCK_SIZE)) by lia.
  apply wrap32_id. lia.
Qed.

(** The offsets of a program none of whose offsets wraps. *)
Lemma elem_of_block_offsets BLOCK_SIZE pid o :
  program_fits BLOCK_SIZE pid →
  o ∈ block_offsets BLOCK_SIZE pid ↔
  (Z.of_nat pid * Z.of_nat BLOCK_SIZE ≤ o
   < Z.of_nat pid * Z.of_nat BLOCK_SIZE + Z.of_nat BLOCK_SIZE)%Z.
Proof.
  intros Hfit. rewrite elem_of_block_offsets_wrap. split.
  - intros (j & Hj & ->). rewrite program_fits_no_wrap by done. lia.
  - intros Ho. exists (o - Z.of_nat pid * Z.of_nat BLOCK_SIZE)%Z.
    split; [lia|]. rewrite program_fits_no_wrap by (done || lia). lia.
Qed.

Lemma valid_offsets_filter BLOCK_SIZE n_elements pid :
  valid_offsets BLOCK_SIZE n_elements pid =
  filter (λ o, (o < Z.of_nat n_elements)%Z) (block_offsets BLOCK_SIZE pid).
Proof.
  unfold valid_offsets, block_mask, block_lt.
  rewrite <- (list_fmap_id (block_offsets BLOCK_SIZE pid)) at 1.
  rewrite masked_fmap, list_fmap_id.
  apply list_filter_iff. intros o. by rewrite bool_decide_eq_true.
Qed.

Lemma elem_of_valid_offsets_wrap BLOCK_SIZE n_elements pid o :
  o ∈ valid_offsets BLOCK_SIZE n_elements pid ↔
  o ∈ block_offsets BLOCK_SIZE pid ∧ (o < Z.of_nat n_elements)%Z.
Proof. rewrite valid_offsets_filter, list_elem_of_filter. tauto. Qed.

Lemma elem_of_valid_offsets BLOCK_SIZE n_elements pid o :
  program_fits BLOCK_SIZE pid →
  o ∈ valid_offsets BLOCK_SIZE n_elements pid ↔
  (Z.of_nat pid * Z.of_nat BLOCK_SIZE ≤ o
   < Z.of_nat pid * Z.of_nat BLOCK_SIZE + Z.of_nat BLOCK_SIZE)%Z ∧
  (o < Z.of_nat n_elements)%Z.
Proof.
  intros Hfit. by rewrite elem_of_valid_offsets_wrap, elem_of_block_offsets.
Qed.


Lemma NoDup_valid_offsets BLOCK_SIZE n_elements pid :
  program_fits BLOCK_SIZE pid → NoDup (valid_offsets BLOCK_SIZE n_elements pid).
Proof.
  intros Hfit. rewrite valid_offsets_filter. apply NoDup_filter.
  unfold block_offsets, block_add, int32_add, int32_mul.
  apply NoDup_fmap_2_strong; [|apply NoDup_seqZ].
  intros j1 j2 H1%elem_of_seqZ H2%elem_of_seqZ Heq.
  rewrite !program_fits_no_wrap in Heq by (done || lia). lia.
Qed.

(** An offset lies in one block only. *)
Lemma block_of_offset BLOCK_SIZE pid1 pid2 o :
  (Z.of_nat pid1 * Z.of_nat BLOCK_SIZE ≤ o
   < Z.of_nat pid1 * Z.of_nat BLOCK_SIZE + Z.of_nat BLOCK_SIZE)%Z →
  (Z.of_nat pid2 * Z.of_nat BLOCK_SIZE ≤ o
   < Z.of_nat pid2 * Z.of_nat BLOCK_SIZE + Z.of_nat BLOCK_SIZE)%Z →
  pid1 = pid2.
Proof.
  intros H1 H2. destruct (decide (pid1 = pid2)) as [|Hne]; [done|]. exfalso.
  destruct (decide (pid1 < pid2)); nia.
Qed.

(** [cdiv] rounds up: the grid is just large enough to cover the range. *)
Lemma cdiv_lt_iff BLOCK_SIZE n_elements pid :
  0 < BLOCK_SIZE → pid < cdiv n_elements BLOCK_SIZE ↔ pid * BLOCK_SIZE < n_elements.
Proof.
  intros HB. unfold cdiv.
  pose proof (Nat.div_mod_eq (n_elements + BLOCK_SIZE - 1) BLOCK_SIZE) as Hdm.
  pose proof (Nat.mod_upper_bound (n_elements + BLOCK_SIZE - 1) BLOCK_SIZE) as Hm.
  split; intros H; nia.
Qed.

Lemma cdiv_covers BLOCK_SIZE n_elements i :
  0 < BLOCK_SIZE → i < n_elements → i / BLOCK_SIZE < cdiv n_elements BLOCK_SIZE.
Proof.
  intros HB Hi. apply cdiv_lt_iff; [done|].
  pose proof (Nat.div_mod_eq i BLOCK_SIZE). nia.
Qed.

Lemma cdiv_upper BLOCK_SIZE n_elements :
  0 < BLOCK_SIZE → cdiv n_elements BLOCK_SIZE * BLOCK_SIZE < n_elements + BLOCK_SIZE.
Proof.
  intros HB. unfold cdiv.
  pose proof (Nat.div_mod_eq (n_elements + BLOCK_SIZE - 1) BLOCK_SIZE) as Hdm.
  pose proof (Nat.mod_upper_bound (n_elements + BLOCK_SIZE - 1) BLOCK_SIZE) as Hm.
  nia.
Qed.

Lemma cdiv_zero BLOCK_SIZE : 0 < BLOCK_SIZE → cdiv 0 BLOCK_SIZE = 0.
Proof. intros HB. unfold cdiv. apply Nat.div_small. lia. Qed.

Lemma cdiv_one BLOCK_SIZE : 0 < BLOCK_SIZE → cdiv 1 BLOCK_SIZE = 1.
Proof.
  intros HB. unfold cdiv. replace (1 + BLOCK_SIZE - 1) with BLOCK_SIZE by lia.
  apply Nat.div_same. lia.
Qed.

Lemma cdiv_multiple BLOCK_SIZE k :
  0 < BLOCK_SIZE → cdiv (k * BLOCK_SIZE) BLOCK_SIZE = k.
Proof.
  intros HB. unfold cdiv. symmetry.
  apply (Nat.div_unique _ _ _ (BLOCK_SIZE - 1)); lia.
Qed.

(** In a grid that fits, every program fits. *)
Lemma grid_fits_program BLOCK_SIZE n_elements pid :
  grid_fits BLOCK_SIZE n_elements → pid < cdiv n_elements BLOCK_SIZE →
  program_fits BLOCK_SIZE pid.
Proof. unfold grid_fits, program_fits. intros Hfit Hpid. nia. Qed.

(** The grid of a power-of-two block size fits when the element count does
    not exceed [2^31]. *)
Lemma block_size_ok_pos BLOCK_SIZE : block_size_ok BLOCK_SIZE → 0 < BLOCK_SIZE.
Proof.
  intros (k & _ & ->). pose proof (Nat.pow_nonzero 2 k). lia.
Qed.

Lemma grid_fits_block_size_ok BLOCK_SIZE n_elements :
  block_size_ok BLOCK_SIZE → (Z.of_nat n_elements ≤ 2 ^ 31)%Z →
  grid_fits BLOCK_SIZE n_elements.
Proof.
  intros Hok Hn. pose proof (block_size_ok_pos _ Hok) as HB.
  destruct Hok as (k & Hk & ->). unfold grid_fits.
  pose proof (cdiv_upper (2 ^ k) n_elements HB) as Hup.
  set (c := cdiv n_elements (2 ^ k)) in *.
  rewrite Nat2Z.inj_pow. change (Z.of_nat 2) with 2%Z.
  assert (Hup' : (Z.of_nat c * 2 ^ Z.of_nat k < Z.of_nat n_elements + 2 ^ Z.of_nat k)%Z).
  { apply Nat2Z.inj_lt in Hup.
    rewrite Nat2Z.inj_mul, Nat2Z.inj_add, Nat2Z.inj_pow in Hup. exact Hup. }
  assert (Hsplit : (2 ^ 31 = 2 ^ (31 - Z.of_nat k) * 2 ^ Z.of_nat k)%Z).
  { rewrite <- Z.pow_add_r by lia. f_equal. lia. }
  assert (0 < 2 ^ Z.of_nat k)%Z by (apply Z.pow_pos_nonneg; lia).
  assert (0 < 2 ^ (31 - Z.of_nat k))%Z by (apply Z.pow_pos_nonneg; lia).
  set (B := (2 ^ Z.of_nat k)%Z) in *. set (Q := (2 ^ (31 - Z.of_nat k))%Z) in *.
  rewrite Hsplit. apply Z.mul_le_mono_nonneg_r; [lia|].
  assert (Z.of_nat c * B < (Q + 1) * B)%Z by lia.
  apply Z.mul_lt_mono_pos_r in H1; lia.
Qed.

Lemma block_size_ok_1024 : block_size_ok 1024.
Proof. exists 10. split; [lia|reflexivity]. Qed.

Lemma grid_fits_1024 n_elements :
  (Z.of_nat n_elements ≤ 2 ^ 31)%Z → grid_fits 1024 n_elements.
Proof. apply grid_fits_block_size_ok, block_size_ok_1024. Qed.

(** [tl.arange] accepts the powers of two up to [2^20]. *)
Lemma arange_block_size_ok BLOCK_SIZE :
  block_size_ok BLOCK_SIZE →
  arange 0 (Z.of_nat BLOCK_SIZE) = Ok (seqZ 0 (Z.of_nat BLOCK_SIZE)).
Proof.
  intros (k & Hk & ->). unfold arange, TRITON_MAX_TENSOR_NUMEL.
  rewrite Nat2Z.inj_pow. change (Z.of_nat 2) with 2%Z.
  assert (Hpos : (0 < 2 ^ Z.of_nat k)%Z) by (apply Z.pow_pos_nonneg; lia).
  rewrite (proj2 (Z.leb_gt _ _)) by lia. rewrite Z.sub_0_r.
  replace (2 ^ Z.of_nat k - 1)%Z with (Z.ones (Z.of_nat k))
    by (rewrite Z.ones_equiv; lia).
  rewrite Z.land_ones by lia. rewrite Z_mod_same_full. cbn [Z.eqb negb].
  rewrite (proj2 (Z.ltb_ge _ _)); [done|].
  change 1048576%Z with (2 ^ 20)%Z. apply Z.pow_le_mono_r; lia.
Qed.




End Blocks.

(** ** One kernel instance *)

Section Kernel.

Context {scalar : Type} (scalar_add : scalar → scalar → scalar).

Implicit Types (h : gmap loc (list (@cell scalar))) (st : @state scalar).
Implicit Types (buf : list (@cell scalar)) (p x_ptr y_ptr output_ptr : pointer).

Lemma store_lanes_fmap {A} h (P : A → pointer) (V : bool → A → cell)
    (m : A → bool) (l : list A) :
  store_lanes h (P <$> l) ((λ a, V (m a) a) <$> l) (m <$> l) =
  foldl (λ h' a, write h' (P a) (V true a)) h (filter (λ a, m a = true) l).
Proof.
  revert h. induction l as [|a l IH]; intros h; [done|].
  cbn [fmap list_fmap store_lanes]. rewrite filter_cons.
  destruct (decide (m a = true)) as [Hm|Hm].
  - cbn [foldl]. rewrite Hm. apply IH.
  - apply not_true_is_false in Hm. rewrite Hm. apply IH.
Qed.

Lemma zip_with_fmap_same {A B C D} (f : B → C → D) (g : A → B) (k : A → C)
    (l : list A) :
  zip_with f (g <$> l) (k <$> l) = (λ a, f (g a) (k a)) <$> l.
Proof. induction l as [|a l IH]; [done|]. cbn. by f_equal. Qed.

Lemma valid_offsets_lanes BLOCK_SIZE n_elements pid :
  filter (λ o, bool_decide (o < Z.of_nat n_elements)%Z = true)
    (block_add (int32_mul (Z.of_nat pid) (Z.of_nat BLOCK_SIZE))
       (seqZ 0 (Z.of_nat BLOCK_SIZE)))
  = valid_offsets BLOCK_SIZE n_elements pid.
Proof.
  rewrite valid_offsets_filter. apply list_filter_iff. intros o.
  by rewrite bool_decide_eq_true.
Qed.

Lemma faults_load h (ps : list pointer) :
  existsb (event_fault h) (EvLoad <$> ps) = any_out_of_bounds h ps.
Proof. induction ps as [|p ps IH]; [done|]. cbn. by rewrite IH. Qed.

Lemma faults_store h (ps : list pointer) :
  existsb (event_fault h) (EvStore <$> ps) = any_out_of_bounds h ps.
Proof. induction ps as [|p ps IH]; [done|]. cbn. by rewrite IH. Qed.

(** The whole effect of one instance of the compiled kernel: it never
    raises, it stores the lane sums at the valid offsets of its block, it
    records its accesses, and the state is undefined afterwards if it was
    before or one of the accesses is out of bounds. *)
Lemma add_program_run x_ptr y_ptr output_ptr n_elements BLOCK_SIZE pid st :
  add_program scalar_add x_ptr y_ptr output_ptr n_elements BLOCK_SIZE
    (seqZ 0 (Z.of_nat BLOCK_SIZE)) {| axis0 := pid |} st =
  (Ok (),
   State (foldl (λ h' o, write h' (ptr_add output_ptr o)
                           (lane_sum scalar_add (heap st) x_ptr y_ptr o))
            (heap st) (valid_offsets BLOCK_SIZE n_elements pid))
         (trace st ++ kernel_events x_ptr y_ptr output_ptr n_elements BLOCK_SIZE pid)
         (undefined st ||
          existsb (event_fault (heap st))
            (kernel_events x_ptr y_ptr output_ptr n_elements BLOCK_SIZE pid))).
Proof.
  unfold add_program, bind, load, store, block_ptr, block_lt, block_cell_add,
    kernel_events, program_id. cbn [axis0 heap trace undefined].
  set (offsets := block_add (int32_mul (Z.of_nat pid) (Z.of_nat BLOCK_SIZE))
                    (seqZ 0 (Z.of_nat BLOCK_SIZE))).
  rewrite !masked_fmap, !zip_with_fmap_same.
  rewrite (store_lanes_fmap (heap st) (ptr_add output_ptr)
             (λ (b : bool) o, cell_add scalar_add
                (if b then read (heap st) (ptr_add x_ptr o) else None)
                (if b then read (heap st) (ptr_add y_ptr o) else None))
             (λ o, bool_decide (o < Z.of_nat n_elements)%Z) offsets).
  subst offsets. rewrite !valid_offsets_lanes.
  rewrite !existsb_app, !faults_load, faults_store.
  rewrite <- !app_assoc, <- !orb_assoc. reflexivity.
Qed.

Lemma add_kernel_compiles x_ptr y_ptr output_ptr n_elements BLOCK_SIZE :
  block_size_ok BLOCK_SIZE →
  add_kernel scalar_add x_ptr y_ptr output_ptr n_elements BLOCK_SIZE =
  Ok (add_program scalar_add x_ptr y_ptr output_ptr n_elements BLOCK_SIZE
        (seqZ 0 (Z.of_nat BLOCK_SIZE))).
Proof. intros Hok. unfold add_kernel. by rewrite arange_block_size_ok. Qed.

(** *** Writes into one buffer *)

Lemma write_cell_length buf (o : Z) (v : cell) :
  length (write_cell buf o v) = length buf.
Proof. unfold write_cell. destruct (0 <=? o)%Z; [apply length_insert|done]. Qed.

Lemma foldl_write_alter h (l : loc) (V : Z → cell) (offs : list Z) :
  foldl (λ h' a, write h' (ptr_add (Ptr l 0) a) (V a)) h offs =
  alter (λ buf, foldl (λ b a, write_cell b a (V a)) buf offs) l h.
Proof.
  revert h. induction offs as [|a offs IH]; intros h; cbn [foldl].
  - apply map_eq. intros k. rewrite lookup_alter. case_decide; [|done].
    subst k. by destruct (h !! l).
  - rewrite IH. unfold write. cbn [ptr_add ptr_base ptr_off Z.add].
    apply map_eq. intros k. rewrite !lookup_alter. case_decide; [|done].
    subst k. rewrite decide_True by done. by destruct (h !! l).
Qed.

Lemma foldl_cell_lookup (V : Z → cell) (offs : list Z) buf (i : nat) :
  foldl (λ b a, write_cell b a (V a)) buf offs !! i =
  if decide (Z.of_nat i ∈ offs ∧ i < length buf) then Some (V (Z.of_nat i))
  else buf !! i.
Proof.
  revert buf. induction offs as [|a offs IH]; intros buf; cbn [foldl].
  - case_decide as H; [|done]. destruct H as [H _]. by apply elem_of_nil in H.
  - rewrite IH, write_cell_length.
    destruct (decide (Z.of_nat i ∈ offs ∧ i < length buf)) as [[Hin Hlt]|Hno].
    + rewrite decide_True; [done|]. split; [by apply list_elem_of_further|done].
    + unfold write_cell. destruct (decide (a = Z.of_nat i)) as [->|Hne].
      * rewrite (proj2 (Z.leb_le _ _)) by lia. rewrite Nat2Z.id.
        destruct (decide (i < length buf)) as [Hlt|Hge].
        -- rewrite list_lookup_insert_eq by done.
           rewrite decide_True; [done|]. split; [apply list_elem_of_here|done].
        -- rewrite list_insert_ge by lia. rewrite decide_False; [done|]. tauto.
      * rewrite (decide_False (P := (Z.of_nat i ∈ a :: offs ∧ i < length buf))).
        2: { rewrite elem_of_cons. intros [[?|?] ?]; [congruence|tauto]. }
        destruct (0 <=? a)%Z eqn:Ha; [|done].
        apply Z.leb_le in Ha. rewrite list_lookup_insert_ne by lia. done.
Qed.

Lemma foldl_cell_length (V : Z → cell) (offs : list Z) buf :
  length (foldl (λ b a, write_cell b a (V a)) buf offs) = length buf.
Proof.
  revert buf. induction offs as [|a offs IH]; intros buf; cbn [foldl]; [done|].
  by rewrite IH, write_cell_length.
Qed.

Lemma foldl_cell_ext (V W : Z → cell) (offs : list Z) buf :
  (∀ a, V a = W a) →
  foldl (λ b a, write_cell b a (V a)) buf offs
  = foldl (λ b a, write_cell b a (W a)) buf offs.
Proof.
  intros HVW. revert buf. induction offs as [|a offs IH]; intros buf; cbn [foldl]; [done|].
  by rewrite HVW, IH.
Qed.

Lemma foldl_cell_same_elems (V : Z → cell) (offs1 offs2 : list Z) buf :
  (∀ i : nat, Z.of_nat i ∈ offs1 ↔ Z.of_nat i ∈ offs2) →
  foldl (λ b a, write_cell b a (V a)) buf offs1
  = foldl (λ b a, write_cell b a (V a)) buf offs2.
Proof.
  intros Hsame. apply list_eq. intros i. rewrite !foldl_cell_lookup.
  destruct (decide (Z.of_nat i ∈ offs1 ∧ i < length buf)) as [[H1 H2]|Hno].
  - rewrite decide_True; [done|]. split; [by apply Hsame|done].
  - rewrite decide_False; [done|]. rewrite <- Hsame. exact Hno.
Qed.

Lemma read_alter_ne h (f : list cell → list cell) (l : loc) p :
  ptr_base p ≠ l → read (alter f l h) p = read h p.
Proof. intros Hne. unfold read. by rewrite lookup_alter_ne. Qed.

(** Writes keep the length of every buffer, and with it what is in
    bounds. *)
Lemma in_bounds_b_alter h (f : list cell → list cell) (l : loc) p :
  (∀ buf, length (f buf) = length buf) →
  in_bounds_b (alter f l h) p = in_bounds_b h p.
Proof.
  intros Hlen. unfold in_bounds_b. rewrite lookup_alter. case_decide; [|done].
  subst l. destruct (h !! ptr_base p) as [buf|]; cbn; [|done]. by rewrite Hlen.
Qed.

Lemma in_bounds_b_foldl_write h (P : Z → pointer) (V : Z → cell) (offs : list Z) p :
  in_bounds_b (foldl (λ h' a, write h' (P a) (V a)) h offs) p = in_bounds_b h p.
Proof.
  revert h. induction offs as [|a offs IH]; intros h; cbn [foldl]; [done|].
  rewrite IH. unfold write. apply in_bounds_b_alter. intros buf.
  apply write_cell_length.
Qed.

Lemma event_fault_ext h h' (evs : list event) :
  (∀ p, in_bounds_b h' p = in_bounds_b h p) →
  existsb (event_fault h') evs = existsb (event_fault h) evs.
Proof.
  intros Hsame. induction evs as [|e evs IH]; [done|].
  cbn [existsb]. rewrite IH. f_equal. destruct e; cbn; by rewrite ?Hsame.
Qed.

Lemma in_bounds_b_spec h p : in_bounds_b h p = true ↔ in_bounds h p.
Proof.
  unfold in_bounds_b, in_bounds. destruct (h !! ptr_base p) as [buf|].
  - rewrite andb_true_iff, Z.leb_le, Z.ltb_lt. split.
    + intros Hb. exists buf. split; [done|lia].
    + intros (buf' & [= <-] & Hb). lia.
  - split; [done|]. by intros (buf & [=] & _).
Qed.

End Kernel.

(** ** The dispatch over the grid *)

Section Launch.

Context {scalar : Type} (scalar_add : scalar → scalar → scalar).
Variable schedule : nat → list nat.

(** What a launch [kernel[grid](...)] promises: the runtime runs every
    program of the grid once, in an order of its choosing. *)
Hypothesis schedule_perm : ∀ g, schedule g ≡ₚ seq 0 g.

Implicit Types (h : gmap loc (list (@cell scalar))) (st : @state scalar).
Implicit Types (x_ptr y_ptr output_ptr : pointer) (x y output : Tensor).

(** Running the programs [pids] one after the other: result, trace, what is
    in bounds, and whether the state is undefined. *)
Lemma run_programs_trace x_ptr y_ptr output_ptr n_elements BLOCK_SIZE pids st :
  ∃ st', run_programs
           (add_program scalar_add x_ptr y_ptr output_ptr n_elements BLOCK_SIZE
              (seqZ 0 (Z.of_nat BLOCK_SIZE))) pids st
         = (Ok (), st') ∧
    trace st' = trace st ++
      (pids ≫= λ pid, EvProgram pid ::
                 kernel_events x_ptr y_ptr output_ptr n_elements BLOCK_SIZE pid) ∧
    (∀ p, in_bounds_b (heap st') p = in_bounds_b (heap st) p) ∧
    undefined st' = undefined st ||
      existsb (event_fault (heap st))
        (pids ≫= λ pid, EvProgram pid ::
                   kernel_events x_ptr y_ptr output_ptr n_elements BLOCK_SIZE pid).
Proof.
  revert st. induction pids as [|pid pids IH]; intros st.
  - exists st. cbn. rewrite app_nil_r, orb_false_r. done.
  - cbn [run_programs]. unfold bind at 1. unfold log at 1.
    unfold bind at 1. rewrite add_program_run. cbn [heap trace undefined].
    match goal with |- context [run_programs _ pids ?s] =>
      destruct (IH s) as (st' & Hrun & Htr & Hin & Hun) end.
    cbn [heap trace undefined] in Htr, Hin, Hun.
    exists st'. split; [done|]. rewrite bind_cons. split; [|split].
    + rewrite Htr. by rewrite <- !app_assoc.
    + intros p. rewrite Hin. apply in_bounds_b_foldl_write.
    + rewrite Hun. cbn [existsb event_fault app]. rewrite existsb_app.
      rewrite (event_fault_ext (heap st) (foldl _ _ _))
        by (intros p; apply in_bounds_b_foldl_write).
      cbn [orb]. by rewrite <- !orb_assoc.
Qed.

(** Memory after the programs [pids], when the output is a buffer of its
    own. *)
Lemma run_programs_heap x_ptr y_ptr (l : loc) n_elements BLOCK_SIZE pids st :
  ptr_base x_ptr ≠ l → ptr_base y_ptr ≠ l →
  heap (run_programs
          (add_program scalar_add x_ptr y_ptr (Ptr l 0) n_elements BLOCK_SIZE
             (seqZ 0 (Z.of_nat BLOCK_SIZE))) pids st).2 =
  alter (λ buf, foldl (λ b a, write_cell b a (lane_sum scalar_add (heap st) x_ptr y_ptr a))
                  buf (pids ≫= valid_offsets BLOCK_SIZE n_elements))
        l (heap st).
Proof.
  intros Hx Hy. revert st. induction pids as [|pid pids IH]; intros st.
  - cbn. apply map_eq. intros k. rewrite lookup_alter. case_decide; [|done].
    subst k. by destruct (heap st !! l).
  - cbn [run_programs]. unfold bind at 1. unfold log at 1.
    unfold bind at 1. rewrite add_program_run. cbn [heap trace undefined].
    rewrite IH. cbn [heap]. rewrite foldl_write_alter.
    apply map_eq. intros k. rewrite !lookup_alter. case_decide; [|done].
    subst k. rewrite decide_True by done.
    destruct (heap st !! l) as [buf|] eqn:Hbuf; [|done]. cbn. f_equal.
    rewrite foldl_app. apply foldl_cell_ext. intros a.
    unfold lane_sum. by rewrite !read_alter_ne.
Qed.

Lemma fresh_ne st (l : loc) buf :
  heap st !! l = Some buf → l ≠ fresh (dom (heap st)).
Proof.
  intros Hl Heq. apply (is_fresh (dom (heap st))). rewrite <- Heq.
  apply elem_of_dom. by exists buf.
Qed.

(** [add] on device-resident tensors is the dispatch of the compiled
    kernel over the grid, from the state with the fresh output. *)
Lemma add_unfold x y st :
  is_cuda x = true → is_cuda y = true →
  add scalar_add schedule x y st =
  let l := fresh (dom (heap st)) in
  let output := mkTensor l (numel x) (tensor_dtype x) (is_cuda x) in
  let r := run_programs
             (add_program scalar_add (first_element x) (first_element y)
                (first_element output) (numel x) 1024 (seqZ 0 (Z.of_nat 1024)))
             (schedule (cdiv (numel x) 1024))
             (State (<[l := replicate (numel x) None]> (heap st)) (trace st)
                    (undefined st)) in
  match r with
  | (Ok _, st') => (Ok output, st')
  | (Raise e, st') => (Raise e, st')
  end.
Proof.
  intros Hx Hy. unfold add, bind, empty_like, assert_, launch, ret.
  cbn [is_cuda numel BLOCK_SIZE].
  rewrite Hx, Hy. cbn [andb]. cbv zeta.
  rewrite add_kernel_compiles by apply block_size_ok_1024.
  by destruct (run_programs _ _ _) as [[[]|e] st'].
Qed.

(** [add] on device-resident tensors returns its output; the trace grows
    by the events of the grid, and the state is undefined afterwards if
    it was before or one of these accesses is out of bounds. *)
Lemma add_trace x y st :
  is_cuda x = true → is_cuda y = true →
  let l := fresh (dom (heap st)) in
  let output := mkTensor l (numel x) (tensor_dtype x) (is_cuda x) in
  let evs := schedule (cdiv (numel x) 1024) ≫= λ pid, EvProgram pid ::
               kernel_events (first_element x) (first_element y) (first_element output)
                 (numel x) 1024 pid in
  ∃ st', add scalar_add schedule x y st = (Ok output, st') ∧
    new_events st st' = evs ∧
    undefined st' = undefined st ||
      existsb (event_fault (<[l := replicate (numel x) None]> (heap st))) evs.
Proof.
  intros Hx Hy l output evs. subst l output evs. rewrite add_unfold by done. cbv zeta.
  match goal with |- context [run_programs (add_program _ _ _ ?o _ _ _) ?ps ?s] =>
    destruct (run_programs_trace (first_element x) (first_element y)
                o (numel x) 1024 ps s)
      as (st' & Hrun & Htr & _ & Hun) end.
  rewrite Hrun. exists st'. split; [done|].
  cbn [heap trace undefined] in Htr, Hun. split; [|exact Hun].
  unfold new_events. rewrite Htr. apply drop_app_length.
Qed.

(** [add] on allocated device-resident tensors: the final memory. *)
Lemma add_heap x y st bx by_ :
  is_cuda x = true → is_cuda y = true →
  heap st !! data_ptr x = Some bx → heap st !! data_ptr y = Some by_ →
  let l := fresh (dom (heap st)) in
  let output := mkTensor l (numel x) (tensor_dtype x) (is_cuda x) in
  ∃ st', add scalar_add schedule x y st = (Ok output, st') ∧
    heap st' = <[l := foldl (λ b a, write_cell b a
                                (lane_sum scalar_add (heap st)
                                   (first_element x) (first_element y) a))
                        (replicate (numel x) None)
                        (schedule (cdiv (numel x) 1024) ≫= valid_offsets 1024 (numel x))]>
               (heap st).
Proof.
  intros Hx Hy Hbx Hby l output. rewrite add_unfold by done. cbv zeta.
  pose proof (fresh_ne _ _ _ Hbx) as Hlx. pose proof (fresh_ne _ _ _ Hby) as Hly.
  unfold first_element. cbn [data_ptr].
  match goal with |- context [run_programs ?k ?ps ?s] =>
    pose proof (run_programs_heap (Ptr (data_ptr x) 0) (Ptr (data_ptr y) 0)
                  (fresh (dom (heap st))) (numel x) 1024 ps s Hlx Hly) as Hheap;
    destruct (run_programs_trace (Ptr (data_ptr x) 0) (Ptr (data_ptr y) 0)
                (Ptr (fresh (dom (heap st))) 0) (numel x) 1024 ps s)
      as (st' & Hrun & _) end.
  rewrite Hrun in Hheap |- *. cbn [snd heap] in Hheap.
  exists st'. split; [done|]. rewrite Hheap.
  rewrite alter_insert_eq. f_equal. apply foldl_cell_ext. intros a.
  unfold lane_sum, read. cbn [ptr_add ptr_base ptr_off].
  by rewrite !lookup_insert_ne by done.
Qed.

(** *** The offsets of a whole grid *)


(** The offsets a grid that fits touches are the index range, in whatever
    order the programs run. *)
Lemma elem_of_grid_offsets BLOCK_SIZE n_elements o :
  0 < BLOCK_SIZE → grid_fits BLOCK_SIZE n_elements →
  o ∈ (schedule (cdiv n_elements BLOCK_SIZE) ≫= valid_offsets BLOCK_SIZE n_elements)
  ↔ (0 ≤ o < Z.of_nat n_elements)%Z.
Proof using schedule_perm.
  intros HB Hfit. rewrite list_elem_of_bind. split.
  - intros (pid & Ho & Hpid). rewrite schedule_perm in Hpid.
    apply elem_of_seq in Hpid.
    apply elem_of_valid_offsets in Ho; [lia|].
    eapply grid_fits_program; [done|lia].
  - intros Ho. exists (Z.to_nat o / BLOCK_SIZE).
    assert (Hpid : Z.to_nat o / BLOCK_SIZE < cdiv n_elements BLOCK_SIZE)
      by (apply cdiv_covers; lia).
    split.
    + apply elem_of_valid_offsets; [by eapply grid_fits_program|].
      pose proof (Nat.div_mod_eq (Z.to_nat o) BLOCK_SIZE) as Hdm.
      pose proof (Nat.mod_upper_bound (Z.to_nat o) BLOCK_SIZE) as Hm. nia.
    + rewrite schedule_perm. apply elem_of_seq. lia.
Qed.

(** Over a grid that fits, every offset of the index range is the valid
    offset of exactly one lane. *)
Lemma grid_offsets_once BLOCK_SIZE n_elements :
  0 < BLOCK_SIZE → grid_fits BLOCK_SIZE n_elements →
  schedule (cdiv n_elements BLOCK_SIZE) ≫= valid_offsets BLOCK_SIZE n_elements
  ≡ₚ seqZ 0 (Z.of_nat n_elements).
Proof using schedule_perm.
  intros HB Hfit. apply NoDup_Permutation.
  - apply NoDup_bind.
    + intros p1 p2 o Hp1 Hp2 H1 H2. rewrite schedule_perm in Hp1, Hp2.
      apply elem_of_seq in Hp1, Hp2.
      apply elem_of_valid_offsets in H1 as [H1 _]; [|eapply grid_fits_program; [done|lia]].
      apply elem_of_valid_offsets in H2 as [H2 _]; [|eapply grid_fits_program; [done|lia]].
      by eapply block_of_offset.
    + intros p Hp. rewrite schedule_perm in Hp. apply elem_of_seq in Hp.
      apply NoDup_valid_offsets. eapply grid_fits_program; [done|lia].
    + rewrite schedule_perm. apply NoDup_seq.
  - apply NoDup_seqZ.
  - intros o. rewrite elem_of_grid_offsets by done. rewrite elem_of_seqZ. lia.
Qed.

(** *** What the events of a grid are *)

Lemma elem_of_kernel_events_load x_ptr y_ptr output_ptr n_elements BLOCK_SIZE pid p :
  EvLoad p ∈ kernel_events x_ptr y_ptr output_ptr n_elements BLOCK_SIZE pid ↔
  ∃ o, o ∈ valid_offsets BLOCK_SIZE n_elements pid ∧
       (p = ptr_add x_ptr o ∨ p = ptr_add y_ptr o).
Proof.
  unfold kernel_events. rewrite !elem_of_app, !list_elem_of_fmap. split.
  - intros [(q & [= ->] & Hq)|[(q & [= ->] & Hq)|(q & [=] & _)]];
      apply list_elem_of_fmap in Hq as (o & -> & Ho); eauto.
  - intros (o & Ho & [->| ->]); [left|right; left];
      (eexists; split; [done|]); apply list_elem_of_fmap; eauto.
Qed.

Lemma elem_of_kernel_events_store x_ptr y_ptr output_ptr n_elements BLOCK_SIZE pid p :
  EvStore p ∈ kernel_events x_ptr y_ptr output_ptr n_elements BLOCK_SIZE pid ↔
  ∃ o, o ∈ valid_offsets BLOCK_SIZE n_elements pid ∧ p = ptr_add output_ptr o.
Proof.
  unfold kernel_events. rewrite !elem_of_app, !list_elem_of_fmap. split.
  - intros [(q & [=] & _)|[(q & [=] & _)|(q & [= ->] & Hq)]].
    apply list_elem_of_fmap in Hq as (o & -> & Ho); eauto.
  - intros (o & Ho & ->). right; right.
    eexists; split; [done|]. apply list_elem_of_fmap; eauto.
Qed.

Lemma elem_of_grid_events_load x_ptr y_ptr output_ptr n_elements BLOCK_SIZE
    (pids : list nat) p :
  EvLoad p ∈ (pids ≫= λ pid, EvProgram pid ::
                kernel_events x_ptr y_ptr output_ptr n_elements BLOCK_SIZE pid) ↔
  ∃ o, o ∈ (pids ≫= valid_offsets BLOCK_SIZE n_elements) ∧
       (p = ptr_add x_ptr o ∨ p = ptr_add y_ptr o).
Proof.
  rewrite list_elem_of_bind. setoid_rewrite list_elem_of_bind. split.
  - intros (pid & Hp & Hpid). apply elem_of_cons in Hp as [[=]|Hp].
    apply elem_of_kernel_events_load in Hp as (o & Ho & Hp). eauto.
  - intros (o & (pid & Ho & Hpid) & Hp). exists pid. split; [|done].
    apply list_elem_of_further, elem_of_kernel_events_load. eauto.
Qed.

Lemma elem_of_grid_events_store x_ptr y_ptr output_ptr n_elements BLOCK_SIZE
    (pids : list nat) p :
  EvStore p ∈ (pids ≫= λ pid, EvProgram pid ::
                 kernel_events x_ptr y_ptr output_ptr n_elements BLOCK_SIZE pid) ↔
  ∃ o, o ∈ (pids ≫= valid_offsets BLOCK_SIZE n_elements) ∧ p = ptr_add output_ptr o.
Proof.
  rewrite list_elem_of_bind. setoid_rewrite list_elem_of_bind. split.
  - intros (pid & Hp & Hpid). apply elem_of_cons in Hp as [[=]|Hp].
    apply elem_of_kernel_events_store in Hp as (o & Ho & Hp). eauto.
  - intros (o & (pid & Ho & Hpid) & Hp). exists pid. split; [|done].
    apply list_elem_of_further, elem_of_kernel_events_store. eauto.
Qed.

Lemma dispatched_kernel_events x_ptr y_ptr output_ptr n_elements BLOCK_SIZE pid :
  dispatched (kernel_events x_ptr y_ptr output_ptr n_elements BLOCK_SIZE pid) = [].
Proof.
  unfold dispatched, kernel_events. rewrite !omap_app.
  assert (Hl : ∀ ps : list pointer, omap
    (λ e, match e with EvProgram q => Some q | _ => None end) (EvLoad <$> ps) = []).
  { induction ps as [|q ps IH]; [done|]. by cbn. }
  assert (Hs : ∀ ps : list pointer, omap
    (λ e, match e with EvProgram q => Some q | _ => None end) (EvStore <$> ps) = []).
  { induction ps as [|q ps IH]; [done|]. by cbn. }
  by rewrite !Hl, Hs.
Qed.

(** Exactly the programs of the list are dispatched, each as often as it
    is listed. *)
Lemma dispatched_grid x_ptr y_ptr output_ptr n_elements BLOCK_SIZE pids :
  dispatched (pids ≫= λ pid, EvProgram pid ::
                kernel_events x_ptr y_ptr output_ptr n_elements BLOCK_SIZE pid) = pids.
Proof.
  induction pids as [|pid pids IH]; [done|].
  rewrite bind_cons. unfold dispatched in *. rewrite omap_app. cbn [omap list_omap].
  fold (dispatched (kernel_events x_ptr y_ptr output_ptr n_elements BLOCK_SIZE pid)).
  by rewrite dispatched_kernel_events, IH.
Qed.

(** The events one instance of the compiled kernel adds. *)
Lemma add_program_events x_ptr y_ptr output_ptr n_elements BLOCK_SIZE pid st :
  new_events st
    (add_program scalar_add x_ptr y_ptr output_ptr n_elements BLOCK_SIZE
       (seqZ 0 (Z.of_nat BLOCK_SIZE)) {| axis0 := pid |} st).2
  = kernel_events x_ptr y_ptr output_ptr n_elements BLOCK_SIZE pid.
Proof.
  rewrite add_program_run. unfold new_events. cbn [snd trace].
  apply drop_app_length.
Qed.

(** No access of a grid that fits is out of bounds, when the three buffers
    have room for the element count. *)
Lemma grid_no_fault h x_ptr y_ptr output_ptr n_elements BLOCK_SIZE bx by_ bo :
  0 < BLOCK_SIZE → grid_fits BLOCK_SIZE n_elements →
  ptr_off x_ptr = 0%Z → ptr_off y_ptr = 0%Z → ptr_off output_ptr = 0%Z →
  h !! ptr_base x_ptr = Some bx → h !! ptr_base y_ptr = Some by_ →
  h !! ptr_base output_ptr = Some bo →
  n_elements ≤ length bx → n_elements ≤ length by_ → n_elements ≤ length bo →
  existsb (event_fault h)
    (schedule (cdiv n_elements BLOCK_SIZE) ≫= λ pid, EvProgram pid ::
       kernel_events x_ptr y_ptr output_ptr n_elements BLOCK_SIZE pid) = false.
Proof using schedule_perm.
  intros HB Hfit Hx0 Hy0 Ho0 Hx Hy Ho Hlx Hly Hlo.
  apply not_true_is_false. intros (e & He & Hf)%existsb_exists.
  apply list_elem_of_In in He.
  assert (Hok : ∀ q buf o, ptr_off q = 0%Z → h !! ptr_base q = Some buf →
            n_elements ≤ length buf →
            o ∈ (schedule (cdiv n_elements BLOCK_SIZE)
                   ≫= valid_offsets BLOCK_SIZE n_elements) →
            in_bounds_b h (ptr_add q o) = true).
  { intros q buf o Hq0 Hq Hlen Hin. apply elem_of_grid_offsets in Hin; [|done..].
    unfold in_bounds_b. cbn [ptr_add ptr_base ptr_off]. rewrite Hq, Hq0.
    apply andb_true_iff. rewrite Z.leb_le, Z.ltb_lt. lia. }
  destruct e as [pid|p|p]; cbn [event_fault] in Hf; [done| |].
  - apply elem_of_grid_events_load in He as (o & Hin & [->| ->]);
      erewrite Hok in Hf; done.
  - apply elem_of_grid_events_store in He as (o & Hin & ->).
    erewrite Hok in Hf; done.
Qed.

(** [t[i]] of a tensor whose buffer is known. *)
Lemma tensor_get_lookup st t (buf : list cell) (i : nat) :
  heap st !! data_ptr t = Some buf → tensor_get st t i = mjoin (buf !! i).
Proof.
  intros Hbuf. unfold tensor_get, read.
  cbn [first_element ptr_add ptr_base ptr_off]. rewrite Hbuf.
  cbn [mbind option_bind]. unfold cell_at. rewrite Z.add_0_l.
  rewrite (proj2 (Z.leb_le _ _)) by lia. by rewrite Nat2Z.id.
Qed.

(** *** The launcher's contract *)

(** C4. For equal-length inputs the returned buffer is as long as either
    input: [len(add(a, b)) == len(a) == len(b)]. *)
Theorem add_length x y (a b : list cell) st :
  tensor_holds st x a → tensor_holds st y b →
  length a = length b →
  is_cuda x = true → is_cuda y = true →
  ∃ output st', add scalar_add schedule x y st = (Ok output, st') ∧
    buffer_length st' output = Some (length a) ∧
    buffer_length st' x = Some (length a) ∧
    buffer_length st' y = Some (length b) ∧
    numel output = numel x ∧ numel x = numel y.
Proof.
  intros [Ha Hna] [Hb Hnb] Hlen Hx Hy.
  destruct (add_heap x y st _ _ Hx Hy Ha Hb) as (st' & Hrun & Hheap).
  eexists _, st'. split; [exact Hrun|]. unfold buffer_length. rewrite Hheap.
  cbn [data_ptr numel]. rewrite lookup_insert_eq.
  rewrite !lookup_insert_ne by (symmetry; eapply fresh_ne; eassumption).
  rewrite Ha, Hb. cbn [fmap option_fmap option_map].
  rewrite foldl_cell_length, length_replicate.
  repeat split; congruence.
Qed.

(** C5. [add] fails in one way only: with an [AssertionError], raised
    before any program is dispatched, when an input (or the output, which
    lives where the first input does) is not on the device.  On
    device-resident inputs it returns, whatever their lengths. *)
Theorem add_failure_mode x y st :
  let r := add scalar_add schedule x y st in
  is_cuda (mkTensor (fresh (dom (heap st))) (numel x) (tensor_dtype x) (is_cuda x))
    = is_cuda x ∧
  (is_cuda x && is_cuda y = false →
     r.1 = Raise AssertionError ∧ new_events st r.2 = []) ∧
  (is_cuda x && is_cuda y = true → ∃ output, r.1 = Ok output) ∧
  (∀ e, r.1 = Raise e → e = AssertionError ∧ is_cuda x && is_cuda y = false).
Proof.
  cbv zeta. split; [done|].
  destruct (is_cuda x) eqn:Hx, (is_cuda y) eqn:Hy; cbn [andb].
  1: { destruct (add_trace x y st Hx Hy) as (st' & Hrun & _). rewrite Hrun. cbn [fst].
       split; [done|]. split; [eauto|]. intros e [=]. }
  all: unfold add, bind, empty_like, assert_, raise; cbn [is_cuda]; rewrite Hx, ?Hy;
    cbn [andb fst snd]; unfold new_events; cbn [trace]; rewrite drop_all;
    (split; [done|]); (split; [done|]); by intros e [= <-].
Qed.

(** *** [add] within 32-bit offsets *)

Lemma read_lookup h (p : pointer) (buf : list cell) (i : nat) :
  ptr_off p = 0%Z → h !! ptr_base p = Some buf →
  read h (ptr_add p (Z.of_nat i)) = mjoin (buf !! i).
Proof.
  intros Hp Hbuf. unfold read. cbn [ptr_add ptr_base ptr_off]. rewrite Hbuf, Hp.
  cbn [mbind option_bind]. unfold cell_at. rewrite Z.add_0_l.
  rewrite (proj2 (Z.leb_le _ _)) by lia. by rewrite Nat2Z.id.
Qed.


(** What a grid that fits leaves in a fresh output buffer: the sums of the
    cells of the two inputs, in whatever order the programs run. *)
Lemma grid_output_buffer BLOCK_SIZE h x_ptr y_ptr n_elements (a b : list cell) :
  0 < BLOCK_SIZE → grid_fits BLOCK_SIZE n_elements →
  ptr_off x_ptr = 0%Z → ptr_off y_ptr = 0%Z →
  h !! ptr_base x_ptr = Some a → h !! ptr_base y_ptr = Some b →
  n_elements = length a → length a ≤ length b →
  foldl (λ buf o, write_cell buf o (lane_sum scalar_add h x_ptr y_ptr o))
    (replicate n_elements None)
    (schedule (cdiv n_elements BLOCK_SIZE) ≫= valid_offsets BLOCK_SIZE n_elements)
  = zip_with (cell_add scalar_add) a b.
Proof using schedule_perm.
  intros HB Hfit Hx0 Hy0 Ha Hb Hn Hlen. apply list_eq. intros i.
  rewrite foldl_cell_lookup, length_replicate, lookup_zip_with.
  destruct (decide (i < n_elements)) as [Hi|Hi].
  - rewrite decide_True by (split; [apply elem_of_grid_offsets; [done..|lia]|done]).
    unfold lane_sum. rewrite (read_lookup h x_ptr a), (read_lookup h y_ptr b) by done.
    destruct (lookup_lt_is_Some_2 a i) as [u Hu]; [lia|].
    destruct (lookup_lt_is_Some_2 b i) as [v Hv]; [lia|].
    by rewrite Hu, Hv.
  - rewrite decide_False by tauto.
    rewrite (lookup_ge_None_2 a i) by lia.
    cbn [mbind option_bind]. apply lookup_replicate_None. lia.
Qed.

(** [add] on device-resident tensors of at most [2^31] elements, the second
    at least as long as the first: the output holds the sums, the events
    are those of the grid, and no access is out of bounds. *)
Lemma add_spec x y (a b : list cell) st :
  tensor_holds st x a → heap st !! data_ptr y = Some b →
  length a ≤ length b →
  is_cuda x = true → is_cuda y = true →
  (Z.of_nat (numel x) ≤ 2 ^ 31)%Z →
  let l := fresh (dom (heap st)) in
  let output := mkTensor l (numel x) (tensor_dtype x) (is_cuda x) in
  ∃ st', add scalar_add schedule x y st = (Ok output, st') ∧
    heap st' = <[l := zip_with (cell_add scalar_add) a b]> (heap st) ∧
    new_events st st' =
      (schedule (cdiv (numel x) 1024) ≫= λ pid, EvProgram pid ::
         kernel_events (first_element x) (first_element y) (first_element output)
           (numel x) 1024 pid) ∧
    undefined st' = undefined st.
Proof using schedule_perm.
  intros [Ha Hna] Hb Hlen Hx Hy Hn l output.
  destruct (add_heap x y st _ _ Hx Hy Ha Hb) as (st' & Hrun & Hheap).
  destruct (add_trace x y st Hx Hy) as (st'' & Hrun' & Hev & Hun).
  rewrite Hrun in Hrun'. injection Hrun' as <-.
  pose proof (grid_fits_1024 _ Hn) as Hfit.
  exists st'. split; [exact Hrun|]. split; [|split; [exact Hev|]].
  - rewrite Hheap. f_equal.
    apply grid_output_buffer; [lia|done|done|done|exact Ha|exact Hb|done|done].
  - rewrite Hun.
    rewrite (grid_no_fault _ _ _ _ _ _ a b (replicate (numel x) None)); cbn [first_element ptr_base ptr_off data_ptr];
      rewrite ?orb_false_r, ?length_replicate, ?lookup_insert_eq; try done; try lia.
    + rewrite lookup_insert_ne; [done|]. symmetry. by eapply fresh_ne.
    + rewrite lookup_insert_ne; [done|]. symmetry. by eapply fresh_ne.
Qed.


(** *** [add] beyond 32-bit offsets *)




(** *** One instance of the compiled kernel *)

Lemma events_no_fault h (evs : list event) :
  (∀ p, EvLoad p ∈ evs ∨ EvStore p ∈ evs → in_bounds h p) →
  existsb (event_fault h) evs = false.
Proof.
  intros Hin. apply not_true_is_false. intros (e & He & Hf)%existsb_exists.
  apply list_elem_of_In in He.
  destruct e as [pid|p|p]; cbn [event_fault] in Hf; [done| |];
    apply negb_true_iff, not_true_iff_false in Hf; apply Hf, in_bounds_b_spec, Hin; auto.
Qed.

Lemma in_bounds_first_element h (t : Tensor) (buf : list cell) (o : Z) :
  h !! data_ptr t = Some buf → (0 ≤ o < Z.of_nat (length buf))%Z →
  in_bounds h (ptr_add (first_element t) o).
Proof.
  intros Ht Ho. exists buf. cbn [ptr_add first_element ptr_base ptr_off].
  split; [exact Ht|lia].
Qed.


Lemma existsb_elem_of {A} (f : A → bool) (l : list A) (e : A) :
  e ∈ l → f e = true → existsb f l = true.
Proof.
  intros He Hf. apply existsb_exists. exists e.
  split; [by apply list_elem_of_In|done].
Qed.


(** *** The dispatch, the block size and the frame *)

Lemma cdiv_lower BLOCK_SIZE n_elements :
  0 < BLOCK_SIZE → n_elements ≤ cdiv n_elements BLOCK_SIZE * BLOCK_SIZE.
Proof.
  intros HB. unfold cdiv.
  pose proof (Nat.div_mod_eq (n_elements + BLOCK_SIZE - 1) BLOCK_SIZE) as Hdm.
  pose proof (Nat.mod_upper_bound (n_elements + BLOCK_SIZE - 1) BLOCK_SIZE) as Hm.
  nia.
Qed.

(** C6. [add] compiles the kernel and dispatches it once per block index
    of [0 .. c), where [c] is the number of blocks of 1024 elements needed
    to cover the element count, rounded up; each dispatch runs one instance
    of the kernel, whose events follow the dispatch.  For empty inputs the
    output is empty and nothing is dispatched; for a single element exactly
    the program 0 is. *)
Theorem add_dispatch x y (a b : list cell) st :
  tensor_holds st x a → tensor_holds st y b →
  is_cuda x = true → is_cuda y = true →
  ∃ output st0 st' prog c,
    empty_like x st = (Ok output, st0) ∧
    add_kernel scalar_add (first_element x) (first_element y) (first_element output)
      (numel output) 1024 = Ok prog ∧
    add scalar_add schedule x y st = (Ok output, st') ∧
    numel x ≤ c * 1024 < numel x + 1024 ∧
    dispatched (new_events st st') ≡ₚ seq 0 c ∧
    length (dispatched (new_events st st')) = c ∧
    new_events st st' =
      (dispatched (new_events st st') ≫= λ pid,
         EvProgram pid :: new_events st0 (prog {| axis0 := pid |} st0).2) ∧
    (numel x = 0 →
       buffer_length st' output = Some 0 ∧ new_events st st' = []) ∧
    (numel x = 1 → dispatched (new_events st st') = [0]).
Proof using schedule_perm.
  intros [Ha Hna] [Hb Hnb] Hx Hy.
  destruct (add_heap x y st _ _ Hx Hy Ha Hb) as (st' & Hrun & Hheap).
  destruct (add_trace x y st Hx Hy) as (st'' & Hrun' & Hev & _).
  rewrite Hrun in Hrun'. injection Hrun' as <-.
  eexists _, _, st', _, (cdiv (numel x) 1024).
  split; [reflexivity|]. cbn [numel].
  split; [apply add_kernel_compiles, block_size_ok_1024|].
  split; [exact Hrun|].
  split; [pose proof (cdiv_lower 1024 (numel x)); pose proof (cdiv_upper 1024 (numel x)); lia|].
  rewrite Hev, dispatched_grid.
  split; [apply schedule_perm|]. split; [by rewrite schedule_perm, length_seq|].
  split; [|split].
  - apply list_bind_ext; [|done]. intros pid. by rewrite add_program_events.
  - intros Hn. split.
    + unfold buffer_length. rewrite Hheap. cbn [data_ptr]. rewrite lookup_insert_eq.
      cbn [fmap option_fmap option_map].
      by rewrite foldl_cell_length, length_replicate, Hn.
    + rewrite Hn. assert (schedule (cdiv 0 1024) = []) as ->; [|done].
      apply Permutation_nil_r. by rewrite schedule_perm.
  - intros Hn. rewrite Hn. apply Permutation_singleton_r. by rewrite schedule_perm.
Qed.





End Launch.

(** ** The benchmark *)

Section Bench.

Context {scalar : Type} (scalar_add : scalar → scalar → scalar).
Variable schedule : nat → list nat.
Variable rand_values : loc → nat → list scalar.
Variable quantile_ms : @M scalar Tensor → float → float.

Implicit Types (st : @state scalar).

(** X13. A provider other than the two configured ones binds no run time,
    and the benchmark stops at the first use of [ms] with an
    [UnboundLocalError]. *)
Lemma benchmark_unknown_provider size provider st :
  provider ≠ "torch" → provider ≠ "triton" →
  (benchmark scalar_add schedule rand_values quantile_ms size provider st).1
  = Raise UnboundLocalError.
Proof.
  intros Ht Hr. apply String.eqb_neq in Ht, Hr.
  unfold benchmark, bind, rand, ret, raise. cbn [fst snd]. by rewrite Ht, Hr.
Qed.

(** For either configured provider, the benchmark is the computation of
    the three figures from the three measured times, in the order median,
    80th percentile, 20th percentile. *)
Lemma benchmark_run size provider x y st st1 st2 :
  provider = "torch" ∨ provider = "triton" →
  rand rand_values size float32 st = (Ok x, st1) →
  rand rand_values size float32 st1 = (Ok y, st2) →
  let fn := if String.eqb provider "torch" then torch_add scalar_add x y
            else add scalar_add schedule x y in
  let gbps := λ ms : float,
    bind (int_truediv (3 * Z.of_nat size * Z.of_nat 4) ms)
         (λ q, ret (q * 1e-6)%float) in
  benchmark scalar_add schedule rand_values quantile_ms size provider st =
  bind (gbps (quantile_ms fn 0.5)) (λ g1,
    bind (gbps (quantile_ms fn 0.8)) (λ g2,
      bind (gbps (quantile_ms fn 0.2)) (λ g3, ret (g1, g2, g3)))) st2.
Proof.
  intros Hp Hx Hy. unfold rand in Hx, Hy.
  injection Hx as <- <-. injection Hy as <- <-. cbv zeta.
  unfold benchmark. unfold bind at 1. unfold rand at 1. cbv beta iota.
  unfold bind at 1. unfold rand at 1. cbv beta iota.
  destruct Hp as [-> | ->].
  - change ("torch" =? "torch")%string with true.
    change ("torch" =? "triton")%string with false.
    cbv beta iota. reflexivity.
  - change ("triton" =? "torch")%string with false.
    change ("triton" =? "triton")%string with true.
    cbv beta iota. reflexivity.
Qed.

Lemma int_truediv_nonzero (z : Z) (d : float) st :
  PrimFloat.eqb d 0 = false →
  int_truediv z d st = (Ok (float_of_int z / d)%float, st).
Proof. intros Hd. unfold int_truediv. by rewrite Hd. Qed.

Lemma int_truediv_zero (z : Z) (d : float) st :
  PrimFloat.eqb d 0 = true →
  int_truediv z d st = (Raise ZeroDivisionError, st).
Proof. intros Hd. unfold int_truediv. by rewrite Hd. Qed.

Lemma bind_ok {A B} (m : M A) (k : A → M B) st (a : A) st' :
  m st = (Ok a, st') → bind m k st = k a st'.
Proof. intros Hm. unfold bind. by rewrite Hm. Qed.

Lemma bind_raise {A B} (m : M A) (k : A → M B) st (e : exn) st' :
  m st = (Raise e, st') → bind m k st = (Raise e, st').
Proof. intros Hm. unfold bind. by rewrite Hm. Qed.

Lemma gbps_nonzero (size : nat) (t : float) st :
  PrimFloat.eqb t 0 = false →
  bind (int_truediv (3 * Z.of_nat size * Z.of_nat 4) t)
       (λ q, ret (q * 1e-6)%float) st
  = (Ok (bandwidth size 4 t), st).
Proof. intros Ht. unfold bind. by rewrite int_truediv_nonzero. Qed.

Lemma gbps_zero (size : nat) (t : float) st :
  PrimFloat.eqb t 0 = true →
  bind (int_truediv (3 * Z.of_nat size * Z.of_nat 4) t)
       (λ q, ret (q * 1e-6)%float) st
  = (Raise ZeroDivisionError, st).
Proof. intros Ht. unfold bind. by rewrite int_truediv_zero. Qed.

(** C9, as the code has it.  For either configured provider and measured
    run times that are not zero, the benchmark returns the three bandwidth
    figures [3 * size * element_size / t * 1e-6] for the measured run
    times [t], in this order: at the median, at the 80th percentile and at
    the 20th percentile of the run times (the smallest figure before the
    largest).  [x] and [y] are the two random inputs it draws, of [size]
    elements of four bytes each, and [fn] the workload it times. *)
Theorem benchmark_bandwidth size provider x y st st1 st2 :
  provider = "torch" ∨ provider = "triton" →
  rand rand_values size float32 st = (Ok x, st1) →
  rand rand_values size float32 st1 = (Ok y, st2) →
  let fn := if String.eqb provider "torch" then torch_add scalar_add x y
            else add scalar_add schedule x y in
  PrimFloat.eqb (quantile_ms fn 0.5) 0 = false →
  PrimFloat.eqb (quantile_ms fn 0.2) 0 = false →
  PrimFloat.eqb (quantile_ms fn 0.8) 0 = false →
  numel x = size ∧ element_size x = 4 ∧ numel y = size ∧
  benchmark scalar_add schedule rand_values quantile_ms size provider st =
  (Ok (bandwidth size (element_size x) (quantile_ms fn 0.5),
       bandwidth size (element_size x) (quantile_ms fn 0.8),
       bandwidth size (element_size x) (quantile_ms fn 0.2)), st2).
Proof.
  intros Hp Hx Hy fn H50 H20 H80.
  rewrite (benchmark_run size provider x y st st1 st2 Hp Hx Hy). cbv zeta. fold fn.
  assert (Hxy : numel x = size ∧ element_size x = 4 ∧ numel y = size).
  { unfold rand in Hx, Hy. injection Hx as <- _. by injection Hy as <- _. }
  destruct Hxy as (Hnx & Hex & Hny). rewrite Hex. do 3 (split; [done|]).
  rewrite (bind_ok _ _ _ _ _ (gbps_nonzero _ _ st2 H50)).
  rewrite (bind_ok _ _ _ _ _ (gbps_nonzero _ _ st2 H80)).
  rewrite (bind_ok _ _ _ _ _ (gbps_nonzero _ _ st2 H20)). reflexivity.
Qed.

(** X14. A measured run time of zero stops the benchmark with a
    [ZeroDivisionError]: the division of [gbps] is Python's. *)
Theorem benchmark_zero_time size provider x y st st1 st2 :
  provider = "torch" ∨ provider = "triton" →
  rand rand_values size float32 st = (Ok x, st1) →
  rand rand_values size float32 st1 = (Ok y, st2) →
  let fn := if String.eqb provider "torch" then torch_add scalar_add x y
            else add scalar_add schedule x y in
  PrimFloat.eqb (quantile_ms fn 0.5) 0
  || PrimFloat.eqb (quantile_ms fn 0.8) 0
  || PrimFloat.eqb (quantile_ms fn 0.2) 0 = true →
  benchmark scalar_add schedule rand_values quantile_ms size provider st =
  (Raise ZeroDivisionError, st2).
Proof.
  intros Hp Hx Hy fn Hz.
  rewrite (benchmark_run size provider x y st st1 st2 Hp Hx Hy). cbv zeta. fold fn.
  destruct (PrimFloat.eqb (quantile_ms fn 0.5) 0) eqn:H50;
    [by rewrite (bind_raise _ _ _ _ _ (gbps_zero _ _ st2 H50))
    |rewrite (bind_ok _ _ _ _ _ (gbps_nonzero _ _ st2 H50))].
  destruct (PrimFloat.eqb (quantile_ms fn 0.8) 0) eqn:H80;
    [by rewrite (bind_raise _ _ _ _ _ (gbps_zero _ _ st2 H80))
    |rewrite (bind_ok _ _ _ _ _ (gbps_nonzero _ _ st2 H80))].
  destruct (PrimFloat.eqb (quantile_ms fn 0.2) 0) eqn:H20;
    [by rewrite (bind_raise _ _ _ _ _ (gbps_zero _ _ st2 H20))|done].
Qed.

End Bench.

(** * Further properties *)

(** ** Blocks and grids *)

Section BlocksMore.

Implicit Types BLOCK_SIZE n_elements pid i : nat.

Lemma valid_offsets_outside_grid BLOCK_SIZE n_elements pid :
  0 < BLOCK_SIZE → program_fits BLOCK_SIZE pid →
  cdiv n_elements BLOCK_SIZE ≤ pid →
  valid_offsets BLOCK_SIZE n_elements pid = [].
Proof.
  intros HB Hfit Hpid.
  destruct (valid_offsets BLOCK_SIZE n_elements pid) as [|o l] eqn:Hv; [done|].
  assert (Ho : o ∈ valid_offsets BLOCK_SIZE n_elements pid)
    by (rewrite Hv; apply list_elem_of_here).
  apply elem_of_valid_offsets in Ho as [Hb Hn]; [|done].
  assert (pid < cdiv n_elements BLOCK_SIZE) by (apply cdiv_lt_iff; [done|nia]).
  lia.
Qed.

Lemma valid_offsets_inside_grid BLOCK_SIZE n_elements pid :
  0 < BLOCK_SIZE → program_fits BLOCK_SIZE pid →
  pid < cdiv n_elements BLOCK_SIZE →
  Z.of_nat (pid * BLOCK_SIZE) ∈ valid_offsets BLOCK_SIZE n_elements pid.
Proof.
  intros HB Hfit Hpid. apply cdiv_lt_iff in Hpid; [|done].
  apply elem_of_valid_offsets; [done|]. lia.
Qed.

(** X1. The grid has exactly the programs that have work: a program
    none of whose offsets wraps around has a valid offset if and only if
    its id is below [cdiv n_elements BLOCK_SIZE]. *)
Theorem valid_offsets_nonempty_iff BLOCK_SIZE n_elements pid :
  0 < BLOCK_SIZE → program_fits BLOCK_SIZE pid →
  valid_offsets BLOCK_SIZE n_elements pid ≠ [] ↔ pid < cdiv n_elements BLOCK_SIZE.
Proof.
  intros HB Hfit. split.
  - intros Hne. destruct (decide (pid < cdiv n_elements BLOCK_SIZE)) as [|Hge]; [done|].
    destruct Hne. apply valid_offsets_outside_grid; [done..|lia].
  - intros Hpid Hnil.
    pose proof (valid_offsets_inside_grid BLOCK_SIZE n_elements pid HB Hfit Hpid) as Hin.
    rewrite Hnil in Hin. by apply elem_of_nil in Hin.
Qed.

(** Every offset of one of the first [k] blocks is below [k * BLOCK_SIZE]:
    it is below [2^31] in any case, and it has not wrapped around when
    [k * BLOCK_SIZE] is below [2^31]. *)
Lemma block_offsets_below BLOCK_SIZE k pid (o : Z) :
  pid < k → o ∈ block_offsets BLOCK_SIZE pid → (o < Z.of_nat (k * BLOCK_SIZE))%Z.
Proof.
  intros Hpid Ho.
  destruct (decide (Z.of_nat (k * BLOCK_SIZE) < 2 ^ 31)%Z) as [Hsmall|Hbig].
  - apply elem_of_block_offsets in Ho; [nia|]. unfold program_fits. nia.
  - apply block_offsets_int32 in Ho. lia.
Qed.

Lemma fmap_all_true {A} (f : A → bool) (l : list A) :
  (∀ a, a ∈ l → f a = true) → f <$> l = replicate (length l) true.
Proof.
  induction l as [|a l IH]; intros Hall; [done|].
  cbn [fmap list_fmap length replicate]. rewrite Hall by apply list_elem_of_here.
  f_equal. apply IH. intros b Hb. by apply Hall, list_elem_of_further.
Qed.

Lemma block_mask_full BLOCK_SIZE k pid :
  pid < k → block_mask BLOCK_SIZE (k * BLOCK_SIZE) pid = replicate BLOCK_SIZE true.
Proof.
  intros Hpid. unfold block_mask, block_lt.
  rewrite fmap_all_true, length_block_offsets; [done|].
  intros o Ho. apply bool_decide_eq_true. by eapply block_offsets_below.
Qed.

Lemma valid_offsets_full BLOCK_SIZE k pid :
  pid < k →
  valid_offsets BLOCK_SIZE (k * BLOCK_SIZE) pid = block_offsets BLOCK_SIZE pid.
Proof.
  intros Hpid. rewrite valid_offsets_filter. apply filter_all, Forall_forall.
  intros o Ho. by eapply block_offsets_below.
Qed.

(** X2. When the element count is a multiple of the block size, the grid
    has one program per multiple and no lane of any of them is masked
    off. *)
Theorem full_blocks BLOCK_SIZE k :
  0 < BLOCK_SIZE →
  cdiv (k * BLOCK_SIZE) BLOCK_SIZE = k ∧
  ∀ pid, pid < k →
    block_mask BLOCK_SIZE (k * BLOCK_SIZE) pid = replicate BLOCK_SIZE true ∧
    valid_offsets BLOCK_SIZE (k * BLOCK_SIZE) pid = block_offsets BLOCK_SIZE pid.
Proof.
  intros HB. split; [by apply cdiv_multiple|].
  intros pid Hpid. split; [by apply block_mask_full|by apply valid_offsets_full].
Qed.

(** X3. Every size the benchmark is run on is a multiple of the block
    size of [add]: its grids are exact and none of their lanes is masked
    off. *)
Theorem x_vals_full_blocks size :
  size ∈ x_vals →
  ∃ k, size = k * 1024 ∧ cdiv size 1024 = k ∧
    ∀ pid, pid < k → valid_offsets 1024 size pid = block_offsets 1024 pid.
Proof.
  unfold x_vals. intros (i & -> & Hi)%list_elem_of_fmap.
  apply elem_of_seq in Hi. exists (2 ^ (i - 10)).
  assert (Hpow : 2 ^ i = 2 ^ (i - 10) * 1024).
  { replace i with ((i - 10) + 10) at 1 by lia. rewrite Nat.pow_add_r.
    f_equal. }
  rewrite Hpow. split; [done|].
  split; [apply cdiv_multiple; lia|]. intros pid Hpid. by apply valid_offsets_full.
Qed.

End BlocksMore.

(** ** Inputs of different lengths *)

Section LaunchMore.

Context {scalar : Type} (scalar_add : scalar → scalar → scalar).
Variable schedule : nat → list nat.
Hypothesis schedule_perm : ∀ g, schedule g ≡ₚ seq 0 g.

Implicit Types (h : gmap loc (list (@cell scalar))) (st : @state scalar).
Implicit Types (x_ptr y_ptr output_ptr : pointer) (x y output : Tensor).

(** X4. A second input longer than the first is read up to the length
    of the first only: on inputs of at most [2^31] elements the output
    has the length of the first input and holds the sums, and no access is
    out of bounds. *)
Theorem add_common_prefix x y (a b : list scalar) st :
  tensor_holds st x (Some <$> a) → tensor_holds st y (Some <$> b) →
  length a ≤ length b →
  is_cuda x = true → is_cuda y = true →
  (Z.of_nat (numel x) ≤ 2 ^ 31)%Z →
  ∃ output st', add scalar_add schedule x y st = (Ok output, st') ∧
    undefined st' = undefined st ∧
    buffer_length st' output = Some (length a) ∧
    ∀ i u, a !! i = Some u →
      ∃ v, b !! i = Some v ∧ tensor_get st' output i = Some (scalar_add u v).
Proof using schedule_perm.
  intros Ha [Hb Hnb] Hlen Hx Hy Hn.
  destruct (add_spec scalar_add schedule schedule_perm x y _ _ st Ha Hb)
    as (st' & Hrun & Hheap & _ & Hun); [rewrite !length_fmap; lia|done..|].
  assert (Hout : heap st' !! fresh (dom (heap st)) =
                 Some (zip_with (cell_add scalar_add) (Some <$> a) (Some <$> b)))
    by (rewrite Hheap; apply lookup_insert_eq).
  eexists _, st'. split; [exact Hrun|]. split; [exact Hun|]. split.
  - unfold buffer_length. cbn [data_ptr]. rewrite Hout.
    cbn [fmap option_fmap option_map]. rewrite length_zip_with, !length_fmap.
    f_equal. lia.
  - intros i u Hu. destruct (lookup_lt_is_Some_2 b i) as [v Hv].
    { apply lookup_lt_Some in Hu. lia. }
    exists v. split; [done|]. erewrite tensor_get_lookup; [|exact Hout].
    by rewrite lookup_zip_with, !list_lookup_fmap, Hu, Hv.
Qed.

(** X5. A second input shorter than the first is read past its end: at
    every offset from its length on, [add] loads from it outside its
    buffer, and what the call leaves is undefined. *)
Theorem add_short_second_input x y (a b : list cell) st :
  tensor_holds st x a → heap st !! data_ptr y = Some b →
  length b < length a →
  is_cuda x = true → is_cuda y = true →
  (Z.of_nat (numel x) ≤ 2 ^ 31)%Z →
  ∃ output st', add scalar_add schedule x y st = (Ok output, st') ∧
    (∀ i, length b ≤ i < length a →
       EvLoad (ptr_add (first_element y) (Z.of_nat i)) ∈ new_events st st' ∧
       ¬ in_bounds (heap st) (ptr_add (first_element y) (Z.of_nat i))) ∧
    undefined st' = true.
Proof using schedule_perm.
  intros [Ha Hna] Hb Hlen Hx Hy Hn.
  destruct (add_trace scalar_add schedule x y st Hx Hy) as (st' & Hrun & Hev & Hun).
  pose proof (fresh_ne _ _ _ Hb) as Hly.
  pose proof (grid_fits_1024 _ Hn) as Hfit.
  assert (Hld : ∀ i, i < length a →
            EvLoad (ptr_add (first_element y) (Z.of_nat i)) ∈ new_events st st').
  { intros i Hi. rewrite Hev. apply elem_of_grid_events_load.
    exists (Z.of_nat i). split; [|by right].
    apply (elem_of_grid_offsets schedule schedule_perm); [lia|done|lia]. }
  eexists _, st'. split; [exact Hrun|]. split.
  - intros i [Hib Hia]. split; [by apply Hld|].
    intros (buf & Hbuf & Hlt).
    cbn [first_element ptr_add ptr_base ptr_off] in Hbuf, Hlt.
    rewrite Hb in Hbuf. injection Hbuf as <-. lia.
  - rewrite Hun. apply orb_true_iff. right.
    rewrite <- Hev. apply (existsb_elem_of _ _ _ (Hld (length b) Hlen)).
    unfold event_fault, in_bounds_b. cbn [first_element ptr_add ptr_base ptr_off].
    rewrite lookup_insert_ne, Hb by done.
    rewrite (proj2 (Z.ltb_ge _ _)) by lia. by rewrite andb_false_r.
Qed.

(** X6. With a second input at least as long as the first, and at most
    [2^31] elements, every load and every store of [add] is inside the
    buffer it points into. *)
Theorem add_in_bounds x y (a b : list cell) st :
  tensor_holds st x a → heap st !! data_ptr y = Some b → length a ≤ length b →
  is_cuda x = true → is_cuda y = true →
  (Z.of_nat (numel x) ≤ 2 ^ 31)%Z →
  ∃ output st', add scalar_add schedule x y st = (Ok output, st') ∧
    undefined st' = undefined st ∧
    ∀ p, EvLoad p ∈ new_events st st' ∨ EvStore p ∈ new_events st st' →
         in_bounds (heap st') p.
Proof using schedule_perm.
  intros Ha Hb Hlen Hx Hy Hn.
  destruct (add_spec scalar_add schedule schedule_perm x y _ _ st Ha Hb)
    as (st' & Hrun & Hheap & Hev & Hun); [done..|].
  destruct Ha as [Ha Hna].
  pose proof (fresh_ne _ _ _ Ha) as Hlx. pose proof (fresh_ne _ _ _ Hb) as Hly.
  pose proof (grid_fits_1024 _ Hn) as Hfit.
  assert (Hgrid : ∀ o, o ∈ (schedule (cdiv (numel x) 1024)
                              ≫= valid_offsets 1024 (numel x))
                       → (0 ≤ o < Z.of_nat (numel x))%Z)
    by (intros o; apply (elem_of_grid_offsets schedule schedule_perm); [lia|done]).
  eexists _, st'. split; [exact Hrun|]. split; [exact Hun|].
  rewrite Hev, Hheap. intros p [Hp|Hp].
  - apply elem_of_grid_events_load in Hp as (o & Ho%Hgrid & [->| ->]).
    + exists a. cbn [first_element ptr_add ptr_base ptr_off].
      split; [by rewrite lookup_insert_ne|lia].
    + exists b. cbn [first_element ptr_add ptr_base ptr_off].
      split; [by rewrite lookup_insert_ne|lia].
  - apply elem_of_grid_events_store in Hp as (o & Ho%Hgrid & ->).
    eexists. cbn [first_element ptr_add ptr_base ptr_off data_ptr].
    split; [apply lookup_insert_eq|]. rewrite length_zip_with. lia.
Qed.

(** X10. Calling [add] twice on the same inputs gives two distinct
    buffers with the same contents, and the second call leaves the first
    result as it was. *)
Theorem add_twice x y (a b : list cell) st :
  tensor_holds st x a → tensor_holds st y b → length a ≤ length b →
  is_cuda x = true → is_cuda y = true →
  (Z.of_nat (numel x) ≤ 2 ^ 31)%Z →
  ∃ output1 st1 output2 st2,
    add scalar_add schedule x y st = (Ok output1, st1) ∧
    add scalar_add schedule x y st1 = (Ok output2, st2) ∧
    data_ptr output1 ≠ data_ptr output2 ∧
    heap st1 !! data_ptr output1 = Some (zip_with (cell_add scalar_add) a b) ∧
    heap st2 !! data_ptr output1 = Some (zip_with (cell_add scalar_add) a b) ∧
    heap st2 !! data_ptr output2 = Some (zip_with (cell_add scalar_add) a b) ∧
    undefined st2 = undefined st.
Proof using schedule_perm.
  intros Ha Hb Hlen Hx Hy Hn.
  destruct (add_spec scalar_add schedule schedule_perm x y _ _ st Ha (proj1 Hb))
    as (st1 & Hrun1 & Hheap1 & _ & Hun1); [done..|].
  pose proof (fresh_ne _ _ _ (proj1 Ha)) as Hlx.
  pose proof (fresh_ne _ _ _ (proj1 Hb)) as Hly.
  assert (Ha1 : tensor_holds st1 x a).
  { destruct Ha as [Ha Hna]. split; [|done]. by rewrite Hheap1, lookup_insert_ne. }
  assert (Hb1 : heap st1 !! data_ptr y = Some b)
    by (rewrite Hheap1, lookup_insert_ne by done; apply Hb).
  destruct (add_spec scalar_add schedule schedule_perm x y _ _ st1 Ha1 Hb1)
    as (st2 & Hrun2 & Hheap2 & _ & Hun2); [done..|].
  assert (Hl1 : heap st1 !! fresh (dom (heap st)) =
                Some (zip_with (cell_add scalar_add) a b))
    by (rewrite Hheap1; apply lookup_insert_eq).
  pose proof (fresh_ne _ _ _ Hl1) as Hne.
  eexists _, st1, _, st2. split; [exact Hrun1|]. split; [exact Hrun2|].
  cbn [data_ptr]. split; [exact Hne|]. split; [exact Hl1|].
  rewrite Hheap2. split; [by rewrite lookup_insert_ne|].
  split; [apply lookup_insert_eq|]. by rewrite Hun2, Hun1.
Qed.

End LaunchMore.

(** ** Accesses and schedules *)

Section AccessMore.

Context {scalar : Type} (scalar_add : scalar → scalar → scalar).
Variable schedule : nat → list nat.
Hypothesis schedule_perm : ∀ g, schedule g ≡ₚ seq 0 g.

Implicit Types (h : gmap loc (list (@cell scalar))) (st : @state scalar).
Implicit Types (x_ptr y_ptr output_ptr : pointer) (x y output : Tensor).

Lemma stores_fmap_store (ps : list pointer) : stores (EvStore <$> ps) = ps.
Proof. induction ps as [|p ps IH]; [done|]. unfold stores in *. cbn. by rewrite IH. Qed.

Lemma stores_fmap_load (ps : list pointer) : stores (EvLoad <$> ps) = [].
Proof. induction ps as [|p ps IH]; [done|]. unfold stores in *. by cbn. Qed.

Lemma loads_fmap_load (ps : list pointer) : loads (EvLoad <$> ps) = ps.
Proof. induction ps as [|p ps IH]; [done|]. unfold loads in *. cbn. by rewrite IH. Qed.

Lemma loads_fmap_store (ps : list pointer) : loads (EvStore <$> ps) = [].
Proof. induction ps as [|p ps IH]; [done|]. unfold loads in *. by cbn. Qed.

Lemma stores_app (e1 e2 : list event) : stores (e1 ++ e2) = stores e1 ++ stores e2.
Proof. apply omap_app. Qed.

Lemma loads_app (e1 e2 : list event) : loads (e1 ++ e2) = loads e1 ++ loads e2.
Proof. apply omap_app. Qed.

Lemma stores_grid x_ptr y_ptr output_ptr n_elements BLOCK_SIZE pids :
  stores (pids ≫= λ pid, EvProgram pid ::
            kernel_events x_ptr y_ptr output_ptr n_elements BLOCK_SIZE pid)
  = ptr_add output_ptr <$> (pids ≫= valid_offsets BLOCK_SIZE n_elements).
Proof.
  induction pids as [|pid pids IH]; [done|].
  rewrite !bind_cons, fmap_app, <- IH.
  change (EvProgram pid :: ?l) with ([EvProgram pid] ++ l).
  rewrite !stores_app. unfold kernel_events.
  by rewrite !stores_app, !stores_fmap_load, stores_fmap_store.
Qed.

Lemma loads_grid x_ptr y_ptr output_ptr n_elements BLOCK_SIZE pids :
  loads (pids ≫= λ pid, EvProgram pid ::
           kernel_events x_ptr y_ptr output_ptr n_elements BLOCK_SIZE pid)
  ≡ₚ (ptr_add x_ptr <$> (pids ≫= valid_offsets BLOCK_SIZE n_elements)) ++
     (ptr_add y_ptr <$> (pids ≫= valid_offsets BLOCK_SIZE n_elements)).
Proof.
  induction pids as [|pid pids IH]; [done|].
  rewrite !bind_cons, !fmap_app.
  change (EvProgram pid :: ?l) with ([EvProgram pid] ++ l).
  rewrite !loads_app, IH. unfold kernel_events.
  rewrite !loads_app, !loads_fmap_load, loads_fmap_store.
  cbn [loads omap list_omap app]. rewrite app_nil_r.
  rewrite <- !app_assoc. apply Permutation_app_head.
  rewrite !app_assoc. apply Permutation_app_tail, Permutation_app_comm.
Qed.

(** X7. On inputs of at most [2^31] elements, [add] stores to every
    element of the output once and loads every element below the element
    count once from each input: three accesses per element, in whatever
    order the programs run. *)
Theorem add_accesses_once x y st :
  is_cuda x = true → is_cuda y = true →
  (Z.of_nat (numel x) ≤ 2 ^ 31)%Z →
  ∃ output st', add scalar_add schedule x y st = (Ok output, st') ∧
    stores (new_events st st')
      ≡ₚ ptr_add (first_element output) <$> seqZ 0 (Z.of_nat (numel x)) ∧
    loads (new_events st st') ≡ₚ
      (ptr_add (first_element x) <$> seqZ 0 (Z.of_nat (numel x))) ++
      (ptr_add (first_element y) <$> seqZ 0 (Z.of_nat (numel x))) ∧
    length (stores (new_events st st')) + length (loads (new_events st st'))
      = 3 * numel x.
Proof using schedule_perm.
  intros Hx Hy Hn.
  destruct (add_trace scalar_add schedule x y st Hx Hy) as (st' & Hrun & Hev & _).
  eexists _, st'. split; [exact Hrun|]. rewrite Hev.
  pose proof (grid_offsets_once schedule schedule_perm 1024 (numel x)) as Hperm.
  pose proof (grid_fits_1024 _ Hn) as Hfit.
  assert (Hs : ∀ o : pointer, stores (schedule (cdiv (numel x) 1024) ≫= λ pid, EvProgram pid ::
             kernel_events (first_element x) (first_element y) o (numel x) 1024 pid)
           ≡ₚ ptr_add o <$> seqZ 0 (Z.of_nat (numel x))).
  { intros o. rewrite stores_grid, Hperm by (lia || done). done. }
  assert (Hl : ∀ o : pointer, loads (schedule (cdiv (numel x) 1024) ≫= λ pid, EvProgram pid ::
             kernel_events (first_element x) (first_element y) o (numel x) 1024 pid)
           ≡ₚ (ptr_add (first_element x) <$> seqZ 0 (Z.of_nat (numel x))) ++
              (ptr_add (first_element y) <$> seqZ 0 (Z.of_nat (numel x)))).
  { intros o. rewrite loads_grid, Hperm by (lia || done). done. }
  split; [apply Hs|]. split; [apply Hl|].
  rewrite Hs, Hl, length_app, !length_fmap, length_seqZ. lia.
Qed.

(** What [tl.arange] returns when it returns. *)
Lemma arange_ok (z : Z) (l : list Z) :
  arange 0 z = Ok l → l = seqZ 0 z ∧ (0 < z)%Z.
Proof.
  unfold arange. destruct (z <=? 0)%Z eqn:Hz; [done|]. apply Z.leb_gt in Hz.
  rewrite Z.sub_0_r. destruct (negb _); [done|].
  destruct (TRITON_MAX_TENSOR_NUMEL <? z)%Z; [done|]. by intros [= <-].
Qed.

Lemma add_kernel_ok x_ptr y_ptr output_ptr n_elements BLOCK_SIZE (prog : @program scalar) :
  add_kernel scalar_add x_ptr y_ptr output_ptr n_elements BLOCK_SIZE = Ok prog →
  0 < BLOCK_SIZE ∧
  prog = add_program scalar_add x_ptr y_ptr output_ptr n_elements BLOCK_SIZE
           (seqZ 0 (Z.of_nat BLOCK_SIZE)).
Proof.
  unfold add_kernel. destruct (arange 0 (Z.of_nat BLOCK_SIZE)) as [l|e] eqn:Hl; [|done].
  apply arange_ok in Hl as [-> Hpos]. intros [= <-]. split; [lia|done].
Qed.

(** X8. A program beyond the grid none of whose offsets wraps around
    does nothing: it accesses no memory and leaves the state as it is. *)
Theorem add_kernel_outside_grid x_ptr y_ptr output_ptr n_elements BLOCK_SIZE pid
    (prog : @program scalar) st :
  add_kernel scalar_add x_ptr y_ptr output_ptr n_elements BLOCK_SIZE = Ok prog →
  program_fits BLOCK_SIZE pid →
  cdiv n_elements BLOCK_SIZE ≤ pid →
  prog {| axis0 := pid |} st = (Ok (), st).
Proof.
  intros [HB ->]%add_kernel_ok Hfit Hpid. rewrite add_program_run.
  unfold kernel_events. rewrite valid_offsets_outside_grid by done.
  destruct st as [h t u]. cbn [fmap list_fmap app foldl existsb heap trace undefined].
  by rewrite app_nil_r, orb_false_r.
Qed.

(** No access of programs that fit is out of bounds, when the three
    buffers have room for the element count. *)
Lemma programs_no_fault h x y output n_elements BLOCK_SIZE (pids : list nat)
    (bx by_ bo : list cell) :
  (∀ pid, pid ∈ pids → program_fits BLOCK_SIZE pid) →
  h !! data_ptr x = Some bx → h !! data_ptr y = Some by_ →
  h !! data_ptr output = Some bo →
  n_elements ≤ length bx → n_elements ≤ length by_ → n_elements ≤ length bo →
  existsb (event_fault h)
    (pids ≫= λ pid, EvProgram pid ::
       kernel_events (first_element x) (first_element y) (first_element output)
         n_elements BLOCK_SIZE pid) = false.
Proof.
  intros Hfit Hx Hy Ho Hlx Hly Hlo. apply events_no_fault.
  assert (Hoff : ∀ o, o ∈ (pids ≫= valid_offsets BLOCK_SIZE n_elements) →
                      (0 ≤ o < Z.of_nat n_elements)%Z).
  { intros o (pid & Ho' & Hpid)%list_elem_of_bind.
    apply elem_of_valid_offsets in Ho'; [lia|by apply Hfit]. }
  intros p [(o & Ho'%Hoff & [->| ->])%elem_of_grid_events_load
           |(o & Ho'%Hoff & ->)%elem_of_grid_events_store];
    eapply in_bounds_first_element; try eassumption; lia.
Qed.

(** X9. Memory after a dispatch depends on which programs ran, not on
    their order nor on how often each ran: for programs none of whose
    offsets wraps around, on buffers with room for the element count and an
    output apart from the inputs, two dispatches of the same programs leave
    the same memory, and no access of either is out of bounds. *)
Theorem run_programs_order_irrelevant x y output n_elements BLOCK_SIZE
    (pids1 pids2 : list nat) (bx by_ bo : list cell) (prog : @program scalar) st :
  add_kernel scalar_add (first_element x) (first_element y) (first_element output)
    n_elements BLOCK_SIZE = Ok prog →
  heap st !! data_ptr x = Some bx → heap st !! data_ptr y = Some by_ →
  heap st !! data_ptr output = Some bo →
  n_elements ≤ length bx → n_elements ≤ length by_ → n_elements ≤ length bo →
  data_ptr x ≠ data_ptr output → data_ptr y ≠ data_ptr output →
  (∀ pid, pid ∈ pids1 → program_fits BLOCK_SIZE pid) →
  (∀ pid, pid ∈ pids1 ↔ pid ∈ pids2) →
  ∃ st1 st2,
    run_programs prog pids1 st = (Ok (), st1) ∧
    run_programs prog pids2 st = (Ok (), st2) ∧
    heap st1 = heap st2 ∧
    undefined st1 = undefined st ∧ undefined st2 = undefined st.
Proof.
  intros [HB ->]%add_kernel_ok Hx Hy Ho Hlx Hly Hlo Hxo Hyo Hfit Hsame.
  destruct (run_programs_trace scalar_add (first_element x) (first_element y)
              (first_element output) n_elements BLOCK_SIZE pids1 st)
    as (st1 & Hrun1 & _ & _ & Hun1).
  destruct (run_programs_trace scalar_add (first_element x) (first_element y)
              (first_element output) n_elements BLOCK_SIZE pids2 st)
    as (st2 & Hrun2 & _ & _ & Hun2).
  pose proof (run_programs_heap scalar_add (first_element x) (first_element y)
                (data_ptr output) n_elements BLOCK_SIZE pids1 st Hxo Hyo) as Hh1.
  pose proof (run_programs_heap scalar_add (first_element x) (first_element y)
                (data_ptr output) n_elements BLOCK_SIZE pids2 st Hxo Hyo) as Hh2.
  fold (first_element output) in Hh1, Hh2.
  rewrite Hrun1 in Hh1. rewrite Hrun2 in Hh2. cbn [snd] in Hh1, Hh2.
  exists st1, st2. split; [exact Hrun1|]. split; [exact Hrun2|]. split; [|split].
  - rewrite Hh1, Hh2. apply alter_ext. intros buf _.
    apply foldl_cell_same_elems. intros i.
    rewrite !list_elem_of_bind. by setoid_rewrite Hsame.
  - rewrite Hun1, (programs_no_fault _ _ _ _ _ _ _ bx by_ bo) by done.
    apply orb_false_r.
  - rewrite Hun2, (programs_no_fault _ _ _ _ _ _ _ bx by_ bo);
      [apply orb_false_r|intros pid Hpid; by apply Hfit, Hsame|done..].
Qed.

End AccessMore.

(** * The properties on the example data *)

Lemma ex_schedule_perm g : ex_schedule g ≡ₚ seq 0 g.
Proof. unfold ex_schedule. symmetry. apply Permutation_rev. Qed.

(** [add] run on the example: the fresh buffer holds the three sums
    [1 + 10], [2 + 20] and [3.5 + 30], ten events were recorded (one
    program, three loads from each input and three stores), and no access
    was out of bounds. *)
Example add_example :
  let r := add f32_add ex_schedule ex_x ex_y ex_st in
  r.1 = Ok (mkTensor 5 3 float32 true) ∧
  heap r.2 !! 5 = Some [Some (f32 11 0); Some (f32 22 0); Some (f32 67 (-1))] ∧
  length (trace r.2) = 10 ∧
  undefined r.2 = false.
Proof. vm_compute. repeat split; reflexivity. Qed.

(** With a second input of one element only, the lanes at offsets 1 and 2
    load past its end: what the call leaves is undefined. *)
Example add_short_example :
  let r := add f32_add ex_schedule ex_x ex_short ex_st in
  r.1 = Ok (mkTensor 5 3 float32 true) ∧ undefined r.2 = true.
Proof. vm_compute. repeat split; reflexivity. Qed.

(** The last block of ten elements in blocks of four, and the only block
    of a single element in a block of 1024. *)
Example valid_offsets_last_block : valid_offsets 4 10 2 = [8; 9]%Z.
Proof. reflexivity. Qed.

Example valid_offsets_single : valid_offsets 1024 1 0 = [0%Z] ∧ cdiv 1 1024 = 1.
Proof. vm_compute. split; reflexivity. Qed.

(** The block sizes the compiler refuses, and the block start that wraps
    around. *)
Example arange_not_power_of_two : arange 0 3 = Raise ValueError.
Proof. vm_compute. reflexivity. Qed.

Example arange_too_large : arange 0 (2 ^ 21) = Raise ValueError.
Proof. vm_compute. reflexivity. Qed.

Example int32_mul_wraps : int32_mul (2 ^ 21) 1024 = (- 2 ^ 31)%Z.
Proof. vm_compute. reflexivity. Qed.

(** ** The claims on the example data *)














(** The instance of the witness, run: program 1 of blocks of two lanes
    over three elements stores the one sum [3.5 + 30] at offset 2. *)
Example add_kernel_example :
  match add_kernel f32_add (first_element ex_x) (first_element ex_y)
          (first_element ex_out) 3 2 with
  | Ok prog =>
      heap (prog {| axis0 := 1 |} ex_st).2 !! 3
      = Some [Some (f32 0 0); Some (f32 0 0); Some (f32 67 (-1))]
  | Raise _ => False
  end.
Proof. vm_compute. reflexivity. Qed.


Lemma add_length_witness :
  ∃ output st', add f32_add ex_schedule ex_x ex_y ex_st = (Ok output, st') ∧
    buffer_length st' output = Some (length (Some <$> ex_a)) ∧
    buffer_length st' ex_x = Some (length (Some <$> ex_a)) ∧
    buffer_length st' ex_y = Some (length (Some <$> ex_b)) ∧
    numel output = numel ex_x ∧ numel ex_x = numel ex_y.
Proof.
  apply (add_length f32_add ex_schedule ex_x ex_y (Some <$> ex_a) (Some <$> ex_b) ex_st).
  - split; vm_compute; reflexivity.
  - split; vm_compute; reflexivity.
  - reflexivity.
  - reflexivity.
  - reflexivity.
Defined.

(** The two scenarios of C6: a single element, for which exactly the
    program 0 is dispatched, and no element at all, for which the output is
    empty and nothing is dispatched or accessed. *)
Lemma add_dispatch_witness :
  (∃ output st',
     add f32_add ex_schedule ex_short ex_short ex_st = (Ok output, st') ∧
     dispatched (new_events ex_st st') = [0]) ∧
  (∃ output st',
     add f32_add ex_schedule ex_empty ex_empty ex_st = (Ok output, st') ∧
     buffer_length st' output = Some 0 ∧ new_events ex_st st' = []).
Proof.
  split.
  - destruct (add_dispatch f32_add ex_schedule ex_schedule_perm ex_short ex_short
                (Some <$> ex_c) (Some <$> ex_c) ex_st)
      as (output & st0 & st' & prog & c & _ & _ & Hrun & _ & _ & _ & _ & _ & H1).
    + split; vm_compute; reflexivity.
    + split; vm_compute; reflexivity.
    + reflexivity.
    + reflexivity.
    + exists output, st'. split; [exact Hrun|]. apply H1. reflexivity.
  - destruct (add_dispatch f32_add ex_schedule ex_schedule_perm ex_empty ex_empty
                [] [] ex_st)
      as (output & st0 & st' & prog & c & _ & _ & Hrun & _ & _ & _ & _ & H0 & _).
    + split; vm_compute; reflexivity.
    + split; vm_compute; reflexivity.
    + reflexivity.
    + reflexivity.
    + exists output, st'. split; [exact Hrun|]. apply H0. reflexivity.
Defined.

(** The two scenarios, run. *)
Example add_single_example :
  let r := add f32_add ex_schedule ex_short ex_short ex_st in
  r.1 = Ok (mkTensor 5 1 float32 true) ∧
  trace r.2 = [EvProgram 0; EvLoad (Ptr 2 0); EvLoad (Ptr 2 0); EvStore (Ptr 5 0)] ∧
  heap r.2 !! 5 = Some [Some (f32 200 0)].
Proof. vm_compute. repeat split; reflexivity. Qed.

Example add_empty_example :
  let r := add f32_add ex_schedule ex_empty ex_empty ex_st in
  r.1 = Ok (mkTensor 5 0 float32 true) ∧ trace r.2 = [] ∧ heap r.2 !! 5 = Some [].
Proof. vm_compute. repeat split; reflexivity. Qed.







(** On the example clock the three times are 5, 2 and 8 ms. *)
Lemma benchmark_bandwidth_witness :
  ∃ x y st1 st2 fn,
    rand ex_rand 4096 float32 ex_st = (Ok x, st1) ∧
    rand ex_rand 4096 float32 st1 = (Ok y, st2) ∧
    fn = add f32_add ex_schedule x y ∧
    numel x = 4096 ∧ element_size x = 4 ∧ numel y = 4096 ∧
    benchmark f32_add ex_schedule ex_rand ex_quantile_ms 4096 "triton" ex_st =
    (Ok (bandwidth 4096 (element_size x) (ex_quantile_ms fn 0.5),
         bandwidth 4096 (element_size x) (ex_quantile_ms fn 0.8),
         bandwidth 4096 (element_size x) (ex_quantile_ms fn 0.2)), st2).
Proof.
  eexists _, _, _, _, _.
  split; [reflexivity|]. split; [reflexivity|]. split; [reflexivity|].
  eapply (benchmark_bandwidth f32_add ex_schedule ex_rand ex_quantile_ms 4096 "triton").
  - right. reflexivity.
  - reflexivity.
  - reflexivity.
  - reflexivity.
  - reflexivity.
  - reflexivity.
Defined.

(** C9, as the claim orders the triple (median, 20th percentile, 80th
    percentile), fails: on the example clock, for 4096 elements and the
    Triton provider, the second figure returned is the one of the 80th
    percentile.  [ex_fn] is the workload the benchmark times there. *)
Lemma benchmark_order_counterexample :
  let ex_fn := add f32_add ex_schedule
                 (mkTensor 5 4096 float32 true) (mkTensor 6 4096 float32 true) in
  (benchmark f32_add ex_schedule ex_rand ex_quantile_ms 4096 "triton" ex_st).1 ≠
  Ok (bandwidth 4096 4 (ex_quantile_ms ex_fn 0.5),
      bandwidth 4096 4 (ex_quantile_ms ex_fn 0.2),
      bandwidth 4096 4 (ex_quantile_ms ex_fn 0.8)).
Proof.
  cbv zeta. intros H.
  apply (f_equal (λ r : result (float * float * float),
           match r with
           | Ok (_, second, _) => PrimFloat.eqb second (bandwidth 4096 4 2)
           | Raise _ => false
           end)) in H.
  vm_compute in H. discriminate H.
Qed.

(** The figures of the example: 4096 elements of four bytes moved three
    times in 5, 8 and 2 ms. *)
Example benchmark_example :
  (benchmark f32_add ex_schedule ex_rand ex_quantile_ms 4096 "triton" ex_st).1
  = Ok (0.0098304, 0.006144, 0.024576)%float.
Proof. vm_compute. reflexivity. Qed.

(** ** The further properties on the example data *)

Lemma valid_offsets_nonempty_iff_witness :
  valid_offsets 4 10 2 ≠ [] ↔ 2 < cdiv 10 4.
Proof.
  apply (valid_offsets_nonempty_iff 4 10 2); [lia|].
  unfold program_fits. vm_compute. discriminate.
Defined.

Lemma full_blocks_witness :
  cdiv (3 * 4) 4 = 3 ∧
  ∀ pid, pid < 3 →
    block_mask 4 (3 * 4) pid = replicate 4 true ∧
    valid_offsets 4 (3 * 4) pid = block_offsets 4 pid.
Proof. apply (full_blocks 4 3). lia. Defined.

Lemma x_vals_full_blocks_witness :
  ∃ k, 2 ^ 12 = k * 1024 ∧ cdiv (2 ^ 12) 1024 = k ∧
    ∀ pid, pid < k → valid_offsets 1024 (2 ^ 12) pid = block_offsets 1024 pid.
Proof.
  apply (x_vals_full_blocks (2 ^ 12)). unfold x_vals.
  apply list_elem_of_fmap. exists 12. split; [reflexivity|].
  apply elem_of_seq. lia.
Defined.

(** The first input has one element here and the second three. *)
Lemma add_common_prefix_witness :
  ∃ output st', add f32_add ex_schedule ex_short ex_x ex_st = (Ok output, st') ∧
    undefined st' = undefined ex_st ∧
    buffer_length st' output = Some (length ex_c) ∧
    ∀ i u, ex_c !! i = Some u →
      ∃ v, ex_a !! i = Some v ∧ tensor_get st' output i = Some (f32_add u v).
Proof.
  apply (add_common_prefix f32_add ex_schedule ex_schedule_perm ex_short ex_x
           ex_c ex_a ex_st).
  - split; vm_compute; reflexivity.
  - split; vm_compute; reflexivity.
  - vm_compute. lia.
  - reflexivity.
  - reflexivity.
  - vm_compute. discriminate.
Defined.

(** The first input has three elements here and the second one. *)
Lemma add_short_second_input_witness :
  ∃ output st', add f32_add ex_schedule ex_x ex_short ex_st = (Ok output, st') ∧
    (∀ i, length (Some <$> ex_c) ≤ i < length (Some <$> ex_a) →
       EvLoad (ptr_add (first_element ex_short) (Z.of_nat i)) ∈ new_events ex_st st' ∧
       ¬ in_bounds (heap ex_st) (ptr_add (first_element ex_short) (Z.of_nat i))) ∧
    undefined st' = true.
Proof.
  apply (add_short_second_input f32_add ex_schedule ex_schedule_perm ex_x ex_short
           (Some <$> ex_a) (Some <$> ex_c) ex_st).
  - split; vm_compute; reflexivity.
  - vm_compute; reflexivity.
  - vm_compute. lia.
  - reflexivity.
  - reflexivity.
  - vm_compute. discriminate.
Defined.

Lemma add_in_bounds_witness :
  ∃ output st', add f32_add ex_schedule ex_x ex_y ex_st = (Ok output, st') ∧
    undefined st' = undefined ex_st ∧
    ∀ p, EvLoad p ∈ new_events ex_st st' ∨ EvStore p ∈ new_events ex_st st' →
         in_bounds (heap st') p.
Proof.
  apply (add_in_bounds f32_add ex_schedule ex_schedule_perm ex_x ex_y
           (Some <$> ex_a) (Some <$> ex_b) ex_st).
  - split; vm_compute; reflexivity.
  - vm_compute; reflexivity.
  - vm_compute. lia.
  - reflexivity.
  - reflexivity.
  - vm_compute. discriminate.
Defined.

Lemma add_accesses_once_witness :
  ∃ output st', add f32_add ex_schedule ex_x ex_y ex_st = (Ok output, st') ∧
    stores (new_events ex_st st')
      ≡ₚ ptr_add (first_element output) <$> seqZ 0 (Z.of_nat (numel ex_x)) ∧
    loads (new_events ex_st st') ≡ₚ
      (ptr_add (first_element ex_x) <$> seqZ 0 (Z.of_nat (numel ex_x))) ++
      (ptr_add (first_element ex_y) <$> seqZ 0 (Z.of_nat (numel ex_x))) ∧
    length (stores (new_events ex_st st')) + length (loads (new_events ex_st st'))
      = 3 * numel ex_x.
Proof.
  apply (add_accesses_once f32_add ex_schedule ex_schedule_perm ex_x ex_y ex_st).
  - reflexivity.
  - reflexivity.
  - vm_compute. discriminate.
Defined.

Lemma ex_kernel_compiles :
  add_kernel f32_add (first_element ex_x) (first_element ex_y) (first_element ex_out) 3 2
  = Ok (add_program f32_add (first_element ex_x) (first_element ex_y)
          (first_element ex_out) 3 2 (seqZ 0 (Z.of_nat 2))).
Proof. apply add_kernel_compiles. exists 1. split; [lia|reflexivity]. Qed.

(** Three elements in blocks of two make a grid of two programs; the
    program 2 is beyond it. *)
Lemma add_kernel_outside_grid_witness :
  ∃ prog,
    add_kernel f32_add (first_element ex_x) (first_element ex_y) (first_element ex_out)
      3 2 = Ok prog ∧
    prog {| axis0 := 2 |} ex_st = (Ok (), ex_st).
Proof.
  eexists. split; [exact ex_kernel_compiles|].
  apply (add_kernel_outside_grid f32_add (first_element ex_x) (first_element ex_y)
           (first_element ex_out) 3 2 2 _ ex_st ex_kernel_compiles).
  - unfold program_fits. vm_compute. discriminate.
  - vm_compute. lia.
Defined.

(** The two programs of the grid of three elements in blocks of two, run
    in either order over a three-element output buffer. *)
Lemma run_programs_order_irrelevant_witness :
  ∃ prog,
    add_kernel f32_add (first_element ex_x) (first_element ex_y) (first_element ex_out)
      3 2 = Ok prog ∧
    ∃ st1 st2,
      run_programs prog [0; 1] ex_st = (Ok (), st1) ∧
      run_programs prog [1; 0] ex_st = (Ok (), st2) ∧
      heap st1 = heap st2 ∧
      undefined st1 = undefined ex_st ∧ undefined st2 = undefined ex_st.
Proof.
  eexists. split; [exact ex_kernel_compiles|].
  apply (run_programs_order_irrelevant f32_add ex_x ex_y ex_out 3 2 [0; 1] [1; 0]
           (Some <$> ex_a) (Some <$> ex_b) (Some <$> ex_d) _ ex_st ex_kernel_compiles).
  - vm_compute. reflexivity.
  - vm_compute. reflexivity.
  - vm_compute. reflexivity.
  - vm_compute. lia.
  - vm_compute. lia.
  - vm_compute. lia.
  - vm_compute. lia.
  - vm_compute. lia.
  - intros pid Hpid. unfold program_fits.
    assert (pid = 0 ∨ pid = 1) as [-> | ->]
      by (apply elem_of_cons in Hpid as [->|Hpid]; [by left|];
          apply list_elem_of_singleton in Hpid; by right);
      vm_compute; discriminate.
  - intros pid. rewrite !elem_of_cons, !elem_of_nil. tauto.
Defined.

(** Both orders leave the three sums in the output buffer. *)
Example run_programs_order_example :
  let prog := add_program f32_add (first_element ex_x) (first_element ex_y)
                (first_element ex_out) 3 2 (seqZ 0 (Z.of_nat 2)) in
  heap (run_programs prog [0; 1] ex_st).2 !! 3
    = Some [Some (f32 11 0); Some (f32 22 0); Some (f32 67 (-1))] ∧
  heap (run_programs prog [1; 0] ex_st).2 !! 3
    = Some [Some (f32 11 0); Some (f32 22 0); Some (f32 67 (-1))].
Proof. vm_compute. split; reflexivity. Qed.

Lemma add_twice_witness :
  ∃ output1 st1 output2 st2,
    add f32_add ex_schedule ex_x ex_y ex_st = (Ok output1, st1) ∧
    add f32_add ex_schedule ex_x ex_y st1 = (Ok output2, st2) ∧
    data_ptr output1 ≠ data_ptr output2 ∧
    heap st1 !! data_ptr output1
      = Some (zip_with (cell_add f32_add) (Some <$> ex_a) (Some <$> ex_b)) ∧
    heap st2 !! data_ptr output1
      = Some (zip_with (cell_add f32_add) (Some <$> ex_a) (Some <$> ex_b)) ∧
    heap st2 !! data_ptr output2
      = Some (zip_with (cell_add f32_add) (Some <$> ex_a) (Some <$> ex_b)) ∧
    undefined st2 = undefined ex_st.
Proof.
  apply (add_twice f32_add ex_schedule ex_schedule_perm ex_x ex_y
           (Some <$> ex_a) (Some <$> ex_b) ex_st).
  - split; vm_compute; reflexivity.
  - split; vm_compute; reflexivity.
  - vm_compute. lia.
  - reflexivity.
  - reflexivity.
  - vm_compute. discriminate.
Defined.

Lemma benchmark_unknown_provider_witness :
  (benchmark f32_add ex_schedule ex_rand ex_quantile_ms 4096 "numpy" ex_st).1
  = Raise UnboundLocalError.
Proof.
  apply (benchmark_unknown_provider f32_add ex_schedule ex_rand ex_quantile_ms
           4096 "numpy" ex_st); discriminate.
Defined.

(** On a clock that measures no time at all. *)
Lemma benchmark_zero_time_witness :
  ∃ st2, benchmark f32_add ex_schedule ex_rand ex_zero_ms 4096 "torch" ex_st
         = (Raise ZeroDivisionError, st2).
Proof.
  eexists.
  eapply (benchmark_zero_time f32_add ex_schedule ex_rand ex_zero_ms 4096 "torch").
  - left. reflexivity.
  - reflexivity.
  - reflexivity.
  - reflexivity.
Defined.
